(** * escreg: the on-chain escrow registry and its off-chain orchestrator

    A shallow embedding of
      - [smart_contracts/mbr-manager/contract.algo.ts]  (class [MbrManager]),
      - [smart_contracts/escreg/contract.algo.ts]       (class [Escreg]),
      - [ts-sdk/src/util.ts]   ([chunk], [getIncreaseBudgetBuilder]),
      - [ts-sdk/src/index.ts]  ([EscregSDK.register]),
    followed by the properties of the specification's section 8 and of the
    component descriptions of section 4.

    Conventions.  A [uint64] is an [N] below [2^64]; the AVM does not wrap
    around: an overflowing [+] or underflowing [-] makes the program fail,
    which is the error [ErrPanic] here.  [ensure(c, msg)] logs [msg] and
    fails, which is [ErrCode msg].  A failed call leaves the ledger state as
    it was (the substrate rolls the group back), so a call is a function
    [State -> result State].  Box storage is two finite maps: the two
    [BoxMap]s cannot clash, since the keys of [apps] are 4 bytes long and the
    keys of [userCredits] are the byte 'c' followed by 32 bytes.  Opcode
    budget and box size limits are the substrate's and are not modelled. *)

From stdpp Require Import gmap strings list fin_maps.
From Stdlib Require Import NArith ZArith Lia.
From Stdlib.Strings Require Import Byte.

Local Open Scope N_scope.

(** ** Bytes and unsigned 64-bit integers *)

Abbreviation bytes := (list Byte.byte).

#[global] Instance byte_eq_dec : EqDecision Byte.byte := Byte.byte_eq_dec.
#[global] Instance byte_countable : Countable Byte.byte :=
  inj_countable Byte.to_N Byte.of_N Byte.of_to_N.

Definition uint64_max : N := 18446744073709551615.

Definition is_uint64 (n : N) : Prop := n <= uint64_max.

(** ** Failure *)

Inductive error : Type :=
| ErrCode (code : string)   (* ensure(false, code): log(code); err() *)
| ErrPanic.                 (* any other failure of the virtual machine *)

Inductive result (A : Type) : Type :=
| Ok (a : A)
| Err (e : error).
Arguments Ok {A} a.
Arguments Err {A} e.

Definition bind {A B} (r : result A) (k : A -> result B) : result B :=
  match r with
  | Ok a => k a
  | Err e => Err e
  end.

Notation "'let*' x ':=' r 'in' k" := (bind r (fun x => k))
  (at level 10, x name, r at level 100, k at level 200).

(** [common.algo.ts]: [ensure]. *)
Definition ensure (condition : bool) (message : string) : result unit :=
  if condition then Ok tt else Err (ErrCode message).

(** [errors.algo.ts]: the codes, with the meaning their comments give. *)
Definition errAuth : string := "ERR:AUTH".
Definition errAppNotRegistered : string := "ERR:404".
Definition errCredit : string := "ERR:CRD".
Definition errReceiver : string := "ERR:RCV".
Definition errAmt : string := "ERR:AMT".

(** The on-chain error kinds of the specification's section 7, each as the
    code that reports it.  [NoAccount] stands there with [ZeroAmount] ("a
    deposit of zero value, or a withdrawal with no existing credit
    account"): both are ERR:AMT, which [withdrawCredits] raises for a sender
    without credit box. *)
Definition Unauthorized : error := ErrCode errAuth.
Definition NotFound : error := ErrCode errAppNotRegistered.
Definition InsufficientCredit : error := ErrCode errCredit.
Definition ReceiverMismatch : error := ErrCode errReceiver.
Definition ZeroAmount : error := ErrCode errAmt.
Definition NoAccount : error := ErrCode errAmt.

(** The AVM's [+] and [-] on uint64. *)
Definition uint64_add (a b : N) : result N :=
  if a + b <=? uint64_max then Ok (a + b) else Err ErrPanic.

Definition uint64_sub (a b : N) : result N :=
  if b <=? a then Ok (a - b) else Err ErrPanic.

(** Reading [box.value]: the program fails when the box does not exist. *)
Definition box_value {A} (o : option A) : result A :=
  match o with
  | Some v => Ok v
  | None => Err ErrPanic
  end.

(** [op.itob]: the 8 bytes of a uint64, most significant first. *)
Definition byte_of_N (n : N) : Byte.byte :=
  match Byte.of_N (n mod 256) with
  | Some b => b
  | None => Byte.x00
  end.

Definition itob (n : N) : bytes :=
  [ byte_of_N (n / 2 ^ 56); byte_of_N (n / 2 ^ 48);
    byte_of_N (n / 2 ^ 40); byte_of_N (n / 2 ^ 32);
    byte_of_N (n / 2 ^ 24); byte_of_N (n / 2 ^ 16);
    byte_of_N (n / 2 ^ 8);  byte_of_N n ].

(** [op.btoi], used only to show that [itob] loses nothing. *)
Definition btoi (bs : bytes) : N :=
  foldl (fun acc b => acc * 256 + Byte.to_N b) 0 bs.

(** The bytes of the template literal [Bytes`appID`]. *)
Definition appID_tag : bytes :=
  [Byte.x61; Byte.x70; Byte.x70; Byte.x49; Byte.x44].

(** ** Ledger state of the application *)

Record State : Type := mkState {
  admin : bytes;                   (* GlobalState<Address> *)
  apps : gmap bytes (list N);      (* BoxMap<bytes<4>, uint64[]>, prefix '' *)
  counter : N;                     (* GlobalState<uint64> *)
  userCredits : gmap bytes N       (* BoxMap<Account, uint64>, prefix 'c' *)
}.

Definition set_apps (f : gmap bytes (list N) -> gmap bytes (list N)) (s : State) : State :=
  mkState (admin s) (f (apps s)) (counter s) (userCredits s).

Definition set_counter (c : N) (s : State) : State :=
  mkState (admin s) (apps s) c (userCredits s).

Definition set_userCredits (f : gmap bytes N -> gmap bytes N) (s : State) : State :=
  mkState (admin s) (apps s) (counter s) (f (userCredits s)).

(** The state right after creation by [creator]: [admin] is the sender of
    the creating call, [counter] is 0, no box exists. *)
Definition initial_state (creator : bytes) : State :=
  mkState creator ∅ 0 ∅.

(** [gtxn.PaymentTxn], the two fields the contract reads. *)
Record PaymentTxn : Type := mkPayment {
  receiver : bytes;
  amount : N
}.

(** Sum of the lengths of all buckets. *)
Definition bucket_total (m : gmap bytes (list N)) : N :=
  map_fold (fun _ l acc => N.of_nat (length l) + acc) 0 m.

(** The class [Escreg] with its base class [MbrManager]. *)
Module Escreg.

Section Contract.

(** The substrate: the hash, the minimum balance of the application
    account as a function of its boxes, and the application's address. *)
Variable sha512_256 : bytes -> bytes.
Variable minBalance : gmap bytes (list N) -> gmap bytes N -> N.
Variable currentApplicationAddress : bytes.

Definition currentMinBalance (s : State) : N :=
  minBalance (apps s) (userCredits s).

(** *** MbrManager *)

Definition manageMbrCredits (mbrBefore : N) (sender : bytes) (s : State) : result State :=
  let mbrAfter := currentMinBalance s in
  if mbrAfter =? mbrBefore then Ok s
  else if mbrBefore <? mbrAfter then
    let creditNeeded := mbrAfter - mbrBefore in
    let userCredit :=
      match userCredits s !! sender with
      | Some v => v
      | None => 0
      end in
    let* _ := ensure (creditNeeded <=? userCredit) errCredit in
    Ok (set_userCredits <[sender := userCredit - creditNeeded]> s)
  else
    let creditToReturn := mbrBefore - mbrAfter in
    let* _ := ensure (bool_decide (is_Some (userCredits s !! sender))) errReceiver in
    let* v := box_value (userCredits s !! sender) in
    let* v' := uint64_add v creditToReturn in
    Ok (set_userCredits <[sender := v']> s).

Definition depositCredits (creditor : bytes) (txn : PaymentTxn)
    (sender : bytes) (s : State) : result State :=
  let* _ := ensure (bool_decide (receiver txn = currentApplicationAddress)) errReceiver in
  let* _ := ensure (0 <? amount txn) errAmt in
  let current :=
    match userCredits s !! creditor with
    | Some v => v
    | None => 0
    end in
  let mbrBefore := currentMinBalance s in
  let* v := uint64_add current (amount txn) in
  manageMbrCredits mbrBefore sender (set_userCredits <[creditor := v]> s).

(** Returns the new state and the amount of the inner payment to the
    sender. *)
Definition withdrawCredits (sender : bytes) (s : State) : result (State * N) :=
  let mbrBefore := currentMinBalance s in
  let* _ := ensure (bool_decide (is_Some (userCredits s !! sender))) errAmt in
  let* credit := box_value (userCredits s !! sender) in
  let s1 := set_userCredits (delete sender) s in
  let mbrAfter := currentMinBalance s1 in
  let* refund := uint64_sub mbrBefore mbrAfter in
  let* finalCredit := uint64_add credit refund in
  Ok (s1, finalCredit).

(** *** Escreg *)

Definition adminOnly (sender : bytes) (s : State) : result unit :=
  ensure (bool_decide (sender = admin s)) errAuth.

Definition deriveAddrPrefix (appId : N) : bytes :=
  take 4 (sha512_256 (appID_tag ++ itob appId)).

Definition deriveAddr (appId : N) : bytes :=
  sha512_256 (appID_tag ++ itob appId).

(** The scan of [appendAppId]: is [appId] one of [existing]? *)
Fixpoint scanExisting (existing : list N) (appId : N) : bool :=
  match existing with
  | [] => false
  | existingId :: rest =>
      if existingId =? appId then true else scanExisting rest appId
  end.

Definition appendAppId (key : bytes) (appId : N) (s : State) : result State :=
  let* existing := box_value (apps s !! key) in
  if scanExisting existing appId then Ok s
  else
    let s1 := set_apps <[key := existing ++ [appId]]> s in
    let* c := uint64_add (counter s1) 1 in
    Ok (set_counter c s1).

(** The body that [register] runs once and [registerList] runs for each
    element (lines 107-113 and 128-134 of the contract). *)
Definition registerStep (s : State) (appId : N) : result State :=
  let key := deriveAddrPrefix appId in
  match apps s !! key with
  | None =>
      let* c := uint64_add (counter s) 1 in
      Ok (set_apps <[key := [appId]]> (set_counter c s))
  | Some _ => appendAppId key appId s
  end.

Fixpoint registerLoop (appIds : list N) (s : State) : result State :=
  match appIds with
  | [] => Ok s
  | appId :: rest =>
      let* s1 := registerStep s appId in
      registerLoop rest s1
  end.

Definition register (appId : N) (sender : bytes) (s : State) : result State :=
  let mbrBefore := currentMinBalance s in
  let* s1 := registerStep s appId in
  manageMbrCredits mbrBefore sender s1.

Definition registerList (appIds : list N) (sender : bytes) (s : State) : result State :=
  let mbrBefore := currentMinBalance s in
  let* s1 := registerLoop appIds s in
  manageMbrCredits mbrBefore sender s1.

Fixpoint deleteLoop (boxKeys : list bytes) (s : State) : result State :=
  match boxKeys with
  | [] => Ok s
  | key :: rest =>
      match apps s !! key with
      | Some bucket =>
          let* c := uint64_sub (counter s) (N.of_nat (length bucket)) in
          deleteLoop rest (set_apps (delete key) (set_counter c s))
      | None => deleteLoop rest s
      end
  end.

Definition deleteBoxes (boxKeys : list bytes) (sender : bytes) (s : State) : result State :=
  let* _ := adminOnly sender s in
  deleteLoop boxKeys s.

Fixpoint findAddr (address : bytes) (candidates : list N) : N :=
  match candidates with
  | [] => 0
  | appId :: rest =>
      if bool_decide (address = deriveAddr appId) then appId
      else findAddr address rest
  end.

Definition exists_ (address : bytes) (s : State) : bool :=
  let addr4 := take 4 address in
  match apps s !! addr4 with
  | None => false
  | Some bucket =>
      let matchingAppID := findAddr address bucket in
      negb (matchingAppID =? 0)
  end.

Definition get (address : bytes) (s : State) : N :=
  let addr4 := take 4 address in
  match apps s !! addr4 with
  | None => 0
  | Some bucket => findAddr address bucket
  end.

Definition mustGet (address : bytes) (s : State) : result N :=
  let addr4 := take 4 address in
  let* _ := ensure (bool_decide (is_Some (apps s !! addr4))) errAppNotRegistered in
  let* bucket := box_value (apps s !! addr4) in
  let matchingAppID := findAddr address bucket in
  let* _ := ensure (negb (matchingAppID =? 0)) errAppNotRegistered in
  Ok matchingAppID.

(** *** Escreg: the administrative methods and the remaining reads *)

(** An inner payment the contract submits. *)
Record InnerPayment : Type := mkInnerPayment {
  pay_receiver : bytes;
  pay_amount : N
}.

Definition deleteApplication (sender : bytes) (s : State) : result unit :=
  adminOnly sender s.

Definition updateApplication (sender : bytes) (s : State) : result unit :=
  adminOnly sender s.

Definition withdraw (amount : N) (sender : bytes) (s : State) : result InnerPayment :=
  let* _ := adminOnly sender s in
  Ok (mkInnerPayment sender amount).

(** [address.native.authAddress]: the address the substrate reports as the
    one that signs for [address]. *)
Variable authAddress : bytes -> bytes.

Record AddressWithAuth : Type := mkAddressWithAuth {
  appId : N;
  authAppId : N
}.

Definition getWithAuth (address : bytes) (s : State) : AddressWithAuth :=
  let addr4 := take 4 address in
  let appId :=
    match apps s !! addr4 with
    | Some bucket => findAddr address bucket
    | None => 0
    end in
  let authAddr := authAddress address in
  let authAddr4 := take 4 authAddr in
  let authAppId :=
    match apps s !! authAddr4 with
    | Some bucket => findAddr authAddr bucket
    | None => 0
    end in
  mkAddressWithAuth appId authAppId.

(** The loop of [getWithAuthList], with [results] as it stands. *)
Fixpoint getWithAuthListLoop (addresses : list bytes) (results : list AddressWithAuth)
    (s : State) : list AddressWithAuth :=
  match addresses with
  | [] => results
  | address :: rest =>
      let addr4 := take 4 address in
      let appId :=
        match apps s !! addr4 with
        | Some bucket => findAddr address bucket
        | None => 0
        end in
      let authAddr := authAddress address in
      let authAddr4 := take 4 authAddr in
      let authAppId :=
        match apps s !! authAddr4 with
        | Some bucket => findAddr authAddr bucket
        | None => 0
        end in
      getWithAuthListLoop rest (results ++ [mkAddressWithAuth appId authAppId]) s
  end.

Definition getWithAuthList (addresses : list bytes) (s : State) : list AddressWithAuth :=
  getWithAuthListLoop addresses [] s.

(** The loop of [getList], with the array [apps] of the method as [found]. *)
Fixpoint getListLoop (addresses : list bytes) (found : list N) (s : State) : list N :=
  match addresses with
  | [] => found
  | address :: rest =>
      let addr4 := take 4 address in
      match apps s !! addr4 with
      | None => getListLoop rest (found ++ [0]) s
      | Some appList => getListLoop rest (found ++ [findAddr address appList]) s
      end
  end.

Definition getList (addresses : list bytes) (s : State) : list N :=
  getListLoop addresses [] s.

Fixpoint mustGetListLoop (addresses : list bytes) (found : list N) (s : State)
    : result (list N) :=
  match addresses with
  | [] => Ok found
  | address :: rest =>
      let addr4 := take 4 address in
      let* _ := (if bool_decide (is_Some (apps s !! addr4)) then Ok tt
                 else ensure false errAppNotRegistered) in
      let* appList := box_value (apps s !! addr4) in
      let matchingAppID := findAddr address appList in
      let* _ := ensure (negb (matchingAppID =? 0)) errAppNotRegistered in
      mustGetListLoop rest (found ++ [matchingAppID]) s
  end.

Definition mustGetList (addresses : list bytes) (s : State) : result (list N) :=
  mustGetListLoop addresses [] s.

End Contract.

End Escreg.

Import Escreg.

(** ** Calls and reachable states *)

(** The calls that change the ledger state.  ([withdraw], [increaseBudget]
    and the read-only methods leave it as it is.) *)
Inductive call : Type :=
| CallRegister (appId : N)
| CallRegisterList (appIds : list N)
| CallDeleteBoxes (boxKeys : list bytes)
| CallDepositCredits (creditor : bytes) (txn : PaymentTxn)
| CallWithdrawCredits.

(** Arguments of type uint64 arrive as 8 bytes. *)
Definition valid_call (c : call) : Prop :=
  match c with
  | CallRegister appId => is_uint64 appId
  | CallRegisterList appIds => Forall is_uint64 appIds
  | CallDepositCredits _ txn => is_uint64 (amount txn)
  | CallDeleteBoxes _ | CallWithdrawCredits => True
  end.

Section Reachability.

Variable sha512_256 : bytes -> bytes.
Variable minBalance : gmap bytes (list N) -> gmap bytes N -> N.
Variable currentApplicationAddress : bytes.

Definition exec (c : call) (sender : bytes) (s : State) : result State :=
  match c with
  | CallRegister appId => register sha512_256 minBalance appId sender s
  | CallRegisterList appIds => registerList sha512_256 minBalance appIds sender s
  | CallDeleteBoxes boxKeys => deleteBoxes boxKeys sender s
  | CallDepositCredits creditor txn =>
      depositCredits minBalance currentApplicationAddress creditor txn sender s
  | CallWithdrawCredits =>
      let* r := withdrawCredits minBalance sender s in Ok (fst r)
  end.

Inductive reachable : State -> Prop :=
| reachable_init (creator : bytes) : reachable (initial_state creator)
| reachable_step (s s' : State) (c : call) (sender : bytes) :
    reachable s -> valid_call c -> exec c sender s = Ok s' -> reachable s'.

End Reachability.

(** [register] called for each identifier in turn, as a sequence of calls
    of one sender does. *)
Fixpoint registerEach (sha512_256 : bytes -> bytes)
    (minBalance : gmap bytes (list N) -> gmap bytes N -> N)
    (appIds : list N) (sender : bytes) (s : State) : result State :=
  match appIds with
  | [] => Ok s
  | appId :: rest =>
      let* s1 := register sha512_256 minBalance appId sender s in
      registerEach sha512_256 minBalance rest sender s1
  end.

(** What holds of the index in every reachable state. *)
Record index_ok (s : State) : Prop := {
  counter_is_total : counter s = bucket_total (apps s);
  ids_are_uint64 : forall key bucket, apps s !! key = Some bucket -> Forall is_uint64 bucket
}.

(** The shape of the buckets: none is empty, none holds an identifier
    twice, and each identifier sits under the first four bytes of its own
    address. *)
Record buckets_ok (sha512_256 : bytes -> bytes) (s : State) : Prop := {
  bucket_not_empty : forall key bucket, apps s !! key = Some bucket -> bucket <> [];
  bucket_no_duplicate : forall key bucket, apps s !! key = Some bucket -> NoDup bucket;
  bucket_of_own_key : forall key bucket i,
    apps s !! key = Some bucket -> i ∈ bucket -> deriveAddrPrefix sha512_256 i = key
}.

(** An identifier is registered when it is in the bucket of its key. *)
Definition registered (sha512_256 : bytes -> bytes) (s : State) (i : N) : Prop :=
  exists bucket, apps s !! deriveAddrPrefix sha512_256 i = Some bucket /\ i ∈ bucket.

(** The balance the settlement hook reads: 0 for an absent account. *)
Definition balance (s : State) (owner : bytes) : N :=
  default 0 (userCredits s !! owner).

(** *** Two sentences of the specification, word for word *)

(** Settlement of a shrinking cost for an owner without credit account
    fails with [NoAccount]. *)
Definition refund_fails_with_NoAccount
    (minBalance : gmap bytes (list N) -> gmap bytes N -> N) : Prop :=
  forall s sender mbrBefore,
    currentMinBalance minBalance s < mbrBefore ->
    userCredits s !! sender = None ->
    manageMbrCredits minBalance mbrBefore sender s = Err NoAccount.

(** A deposit that creates the owner's account leaves the owner with the
    amount less the growth of the storage cost. *)
Definition deposit_is_self_funding
    (minBalance : gmap bytes (list N) -> gmap bytes N -> N)
    (currentApplicationAddress : bytes) : Prop :=
  forall s sender creditor txn s',
    userCredits s !! creditor = None ->
    depositCredits minBalance currentApplicationAddress creditor txn sender s = Ok s' ->
    userCredits s' !! creditor =
      Some (amount txn
            - (minBalance (apps s) (<[creditor := amount txn]> (userCredits s))
               - currentMinBalance minBalance s)).

(** ** The SDK: budget negotiation and the batch orchestrator

    JavaScript numbers that count things are [nat]; the budget arithmetic,
    which goes below zero, is in [Z].  [Math.ceil (a / b)] on a quotient of
    integers of this size is the exact ceiling.  The network is a set of
    oracles: what a simulation reports, whether a submitted group is
    confirmed, and the transaction ids of a built group.  Box references,
    fees of the [registerList] calls, the random note and the signer do not
    take part in any decision and are left out of a call. *)

Module EscregSDK.

(** [util.ts]: [chunk].  The source throws for [size <= 0]; its callers pass
    the constants 7, 105, 63 and 128, and [size] is a [positive] here. *)
Fixpoint chunkLoop {A} (fuel : nat) (array : list A) (size : positive) : list (list A) :=
  match fuel with
  | O => []
  | S fuel' =>
      match array with
      | [] => []
      | _ => take (Pos.to_nat size) array :: chunkLoop fuel' (drop (Pos.to_nat size) array) size
      end
  end.

Definition chunk {A} (array : list A) (size : positive) : list (list A) :=
  chunkLoop (length array) array size.

Definition increaseBudgetBaseCost : Z := 26.
Definition increaseBudgetIncrementCost : Z := 22.

(** A call of a group under construction ([EscregComposer]). *)
Inductive Call : Type :=
| RegisterListCall (appIds : list N)
| IncreaseBudgetCall (itxns extraFee maxFee : Z).

(** What the negotiator reads of a simulation: for each transaction of the
    group its result, if any, with its type and inner transactions, and the
    budget the group consumed. *)
Record TxnResult : Type := mkTxnResult {
  txn_type : string;
  innerTxns : option (list string)
}.

Record SimulateResponse : Type := mkSimulateResponse {
  txnResults : list (option TxnResult);
  appBudgetConsumed : option Z
}.

(** [Math.ceil (a / b)] for integers [a] and [b > 0]. *)
Definition ceil_div (a b : Z) : Z := (- ((- a) / b))%Z.

Definition countAppCalls (results : list (option TxnResult)) : Z :=
  foldl (fun sum r =>
           match r with
           | Some txnResult =>
               if bool_decide (txn_type txnResult = "appl"%string) then
                 let inner := default [] (innerTxns txnResult) in
                 (sum + 1 + Z.of_nat (length inner))%Z
               else sum
           | None => sum
           end) 0%Z results.

(** [util.ts]: [getIncreaseBudgetBuilder].  [None] is [undefined]. *)
Definition getIncreaseBudgetBuilder
    (simulate : list Call -> SimulateResponse)
    (builder : list Call) (newBuilderFactory : list Call) : option (list Call) :=
  let response := simulate builder in
  let consumed := default 0%Z (appBudgetConsumed response) in
  let numAppCalls := countAppCalls (txnResults response) in
  let existingBudget := (700 * numAppCalls)%Z in
  if (consumed <=? existingBudget)%Z then None
  else
    let existingBudget' := (existingBudget + (700 - increaseBudgetBaseCost))%Z in
    let itxnBudgetNeeded := (consumed - existingBudget')%Z in
    let itxns := Z.max 0 (ceil_div itxnBudgetNeeded (700 - increaseBudgetIncrementCost)) in
    Some (newBuilderFactory
            ++ [IncreaseBudgetCall itxns (itxns * 1000)%Z ((itxns + 1) * 1000)%Z]).

(** The number of sub-calls as the specification words it: the shortfall
    (consumed minus available) divided by the net contribution of a
    sub-call (allowance minus overhead), rounded up. *)
Definition spec_itxns (consumed available : Z) : Z :=
  ceil_div (consumed - available) (700 - increaseBudgetIncrementCost).

(** The sentence of the specification on the number of sub-calls, word for
    word: whenever the budget falls short, the call put in front asks for
    [spec_itxns] sub-calls. *)
Definition negotiation_as_specified : Prop :=
  forall (simulate : list Call -> SimulateResponse) (builder : list Call),
    let response := simulate builder in
    let consumed := default 0%Z (appBudgetConsumed response) in
    let available := (700 * countAppCalls (txnResults response))%Z in
    (available < consumed)%Z ->
    let n := spec_itxns consumed available in
    getIncreaseBudgetBuilder simulate builder []
      = Some [IncreaseBudgetCall n (n * 1000)%Z ((n + 1) * 1000)%Z].

(** [index.ts], [register]: [addRegisterListCalls] for the chunks of a
    group. *)
Definition addRegisterListCalls (appIdChunk : list (list N)) (builder : list Call) : list Call :=
  foldl (fun b appIds => b ++ [RegisterListCall appIds]) builder appIdChunk.

(** Lines 298-324: the group that is submitted for [groupChunk]. *)
Definition buildGroup (simulate : list Call -> SimulateResponse) (groupChunk : list N) : list Call :=
  let appIdChunk := chunk groupChunk 7 in
  let group := addRegisterListCalls appIdChunk [] in
  match getIncreaseBudgetBuilder simulate group [] with
  | Some increasedBuilder => addRegisterListCalls appIdChunk increasedBuilder
  | None => group
  end.

(** The error thrown at line 353. *)
Inductive SdkError : Type :=
| PersistentBatchFailure (passIdx thisPassFails : nat).

Inductive Outcome : Type :=
| Returned (txIDs : list string)
| Thrown (e : SdkError).

(** One pass as the network saw it: the groups submitted, in order, each
    with the identifiers it carries and whether it was confirmed. *)
Record Pass : Type := mkPass {
  pass_index : nat;
  pass_prev_fails : nat;
  pass_groups : list (list N * bool)
}.

Definition pass_ids (p : Pass) : list N := concat (fst <$> pass_groups p).

Definition failed_groups (groups : list (list N * bool)) : list (list N) :=
  fst <$> filter (fun g => snd g = false) groups.

Definition pass_fails (p : Pass) : nat :=
  sum_list (length <$> failed_groups (pass_groups p)).

(** Lines 264-271: drop the identifiers whose index is one of
    [existingIndices], the indices of the defined values of the lookup. *)
Definition isExisting (values : list (option N)) (idx : nat) : bool :=
  match values !! idx with
  | Some (Some _) => true
  | _ => false
  end.

Definition dropExisting (values : list (option N)) (appIds : list N) : list N :=
  snd <$> filter (fun p => isExisting values (fst p) = false)
                 (imap (fun idx appId => (idx, appId)) appIds).

Section Orchestrator.

(** The network, as seen for the group at position [chunkIdx] of pass
    [passIdx]. *)
Variable simulate : nat -> nat -> list Call -> SimulateResponse.
Variable send : nat -> nat -> list Call -> bool.
Variable txIDs : list Call -> list string.
(** [Object.values] of the result of the lookup of the identifiers'
    addresses. *)
Variable lookupValues : list N -> list (option N).
(** The order in which the failed groups of a pass pushed their
    identifiers: with [concurrency] 1 the order of the groups, otherwise
    some other order. *)
Variable completion : nat -> list (list N) -> list (list N).

(** Lines 293-347 for each group of a pass: the transaction ids of the
    group that was built, returned whether or not the group went through,
    and the group with its fate. *)
Definition runGroup (passIdx chunkIdx : nat) (groupChunk : list N)
    : list string * (list N * bool) :=
  let group := buildGroup (simulate passIdx chunkIdx) groupChunk in
  (txIDs group, (groupChunk, send passIdx chunkIdx group)).

(** Lines 256-272: the identifiers that are left to register. *)
Definition checkedIds (skipCheck : bool) (appIds : list N) : list N :=
  if skipCheck then appIds else dropExisting (lookupValues appIds) appIds.

(** [results] of line 291. *)
Definition passResults (passIdx : nat) (appIds : list N) : list (list string) :=
  fst <$> imap (runGroup passIdx) (chunk appIds (7 * 15)).

Definition runPass (passIdx prevPassFails : nat) (appIds : list N) : Pass :=
  mkPass passIdx prevPassFails (snd <$> imap (runGroup passIdx) (chunk appIds (7 * 15))).

(** [failedAppIds] at the end of a pass. *)
Definition failedAppIds (this : Pass) : list N :=
  concat (completion (pass_index this) (failed_groups (pass_groups this))).

(** [index.ts]: [register], for an SDK that has a writer account (line 254
    throws without one).  The result is the passes made, in order, and how
    the run ended.  [fuel] bounds the number of passes; [None] is a run that
    needs more. *)
Fixpoint register (fuel : nat) (appIds : list N) (skipCheck : bool)
    (passIdx prevPassFails : nat) : option (list Pass * Outcome) :=
  match fuel with
  | O => None
  | S fuel' =>
      let appIds := checkedIds skipCheck appIds in
      match appIds with
      | [] => Some ([], Returned [])
      | _ =>
          let results := passResults passIdx appIds in
          let this := runPass passIdx prevPassFails appIds in
          let thisPassFails := pass_fails this in
          if negb (thisPassFails =? 0)%nat && (thisPassFails =? prevPassFails)%nat then
            Some ([this], Thrown (PersistentBatchFailure passIdx thisPassFails))
          else if negb (thisPassFails =? 0)%nat then
            match register fuel' (failedAppIds this) true (passIdx + 1) thisPassFails with
            | None => None
            | Some (later, Thrown e) => Some (this :: later, Thrown e)
            | Some (later, Returned nextResults) =>
                Some (this :: later, Returned (concat (results ++ [nextResults])))
            end
          else Some ([this], Returned (concat results))
      end
  end.

End Orchestrator.

(** The identifiers of the groups of a pass that went through. *)
Definition confirmed_ids (p : Pass) : list N :=
  concat (fst <$> filter (fun g => snd g = true) (pass_groups p)).

(** The identifiers a run has left unregistered: none when it returns, those
    of the failed groups of the last pass when it throws. *)
Definition undelivered (log : list Pass) (out : Outcome) : list N :=
  match out with
  | Returned _ => []
  | Thrown _ =>
      match last log with
      | Some p => concat (failed_groups (pass_groups p))
      | None => []
      end
  end.

(** *** [lookup]

    An address is the 32 bytes its string stands for.  A [LookupResult] is a
    JavaScript object whose keys are such strings: its entries in the order
    in which the keys were first assigned.  A key is [None] for the property
    name that an index past the end of [addressesChunk] yields.  A value is
    [None] for [undefined]. *)

Abbreviation LookupResult := (list (option bytes * option N)).

(** [out[key] = value]. *)
Fixpoint objectSet (out : LookupResult) (key : option bytes) (value : option N)
    : LookupResult :=
  match out with
  | [] => [(key, value)]
  | (k, v) :: rest =>
      if decide (k = key) then (key, value) :: rest
      else (k, v) :: objectSet rest key value
  end.

(** [out[key]]: [None] when [out] has no such key. *)
Fixpoint objectGet (out : LookupResult) (key : option bytes) : option (option N) :=
  match out with
  | [] => None
  | (k, v) :: rest => if decide (k = key) then Some v else objectGet rest key
  end.

(** [appId || undefined]. *)
Definition orUndefined (appId : N) : option N :=
  if appId =? 0 then None else Some appId.

(** Lines 419-422: the inner loop over the values one call returned, with
    [out] and the counter [i] as they stand. *)
Fixpoint assignReturns (addressesChunk : list bytes) (txnReturns : list N)
    (out : LookupResult) (i : nat) : LookupResult * nat :=
  match txnReturns with
  | [] => (out, i)
  | appId :: rest =>
      let address := addressesChunk !! i in
      assignReturns addressesChunk rest (objectSet out address (orUndefined appId)) (S i)
  end.

(** Lines 418-423: the loop over the calls of the group. *)
Fixpoint assignGroup (addressesChunk : list bytes) (grpReturn : list (list N))
    (out : LookupResult) (i : nat) : LookupResult :=
  match grpReturn with
  | [] => out
  | txnReturns :: rest =>
      let r := assignReturns addressesChunk txnReturns out i in
      assignGroup addressesChunk rest (fst r) (snd r)
  end.

(** Lines 440-445: the merge of the results of the groups. *)
Definition mergeResults (results : list LookupResult) : LookupResult :=
  foldl (fun finalResult result =>
           foldl (fun final entry => objectSet final (fst entry) (snd entry))
                 finalResult result)
        [] results.

Section Lookup.

(** What the simulation of group [chunkIndex] returns: for each [getList]
    call of the group, given by its addresses, the values it returned. *)
Variable simulateReads : nat -> list (list bytes) -> list (list N).

Definition lookupChunk (chunkIndex : nat) (addressesChunk : list bytes) : LookupResult :=
  let addressChunks := chunk addressesChunk 63 in
  let grpReturn := simulateReads chunkIndex addressChunks in
  assignGroup addressesChunk grpReturn [] 0.

Definition lookup (addresses : list bytes) : LookupResult :=
  let chunks := chunk addresses 128 in
  let results := imap lookupChunk chunks in
  mergeResults results.

End Lookup.

(** The first occurrences of the elements of a list, in order. *)
Definition appendNew (seen : list bytes) (l : list bytes) : list bytes :=
  foldl (fun seen a => if decide (a ∈ seen) then seen else seen ++ [a]) seen l.

Definition firstOccurrences (l : list bytes) : list bytes := appendNew [] l.

(** The identifiers a call of a group carries. *)
Definition call_appIds (c : Call) : list N :=
  match c with
  | RegisterListCall appIds => appIds
  | IncreaseBudgetCall _ _ _ => []
  end.

Definition isIncreaseBudget (c : Call) : bool :=
  match c with
  | RegisterListCall _ => false
  | IncreaseBudgetCall _ _ _ => true
  end.

(** The transaction ids of the groups of a pass, in the order of the groups. *)
Definition passTxIDs (simulate : nat -> nat -> list Call -> SimulateResponse)
    (send : nat -> nat -> list Call -> bool) (txIDs : list Call -> list string)
    (p : Pass) : list string :=
  concat (passResults simulate send txIDs (pass_index p) (pass_ids p)).

(** The entry of an address in the result of a lookup on the state [s]. *)
Definition lookupEntry (sha512_256 : bytes -> bytes) (s : State) (address : bytes)
    : option bytes * option N :=
  (Some address, orUndefined (Escreg.get sha512_256 address s)).

End EscregSDK.

(** ** The substrate used to run the model on concrete inputs *)

(** A stand-in for the hash that has no collision on the 13-byte inputs of
    [deriveAddr]: the input reversed and padded with zeros to 32 bytes.  Its
    first four bytes are the four low-order bytes of the identifier, so
    identifiers that differ in their high-order bytes share a bucket. *)
Definition padded_reverse (x : bytes) : bytes :=
  take 32 (reverse x ++ replicate 32 Byte.x00).

(** The minimum balance of the application account with its boxes, by the
    rule the tests cite ("Box MBR = 2500 + 400 * (33 key + 8 value)"): 100000
    for the account, and 2500 + 400 per byte of name and value for each box.
    An [apps] box has a 4-byte name and holds a 2-byte length and 8 bytes per
    identifier. *)
Definition box_min_balance (apps : gmap bytes (list N)) (credits : gmap bytes N) : N :=
  100000
  + map_fold (fun _ l acc => 2500 + 400 * (4 + 2 + 8 * N.of_nat (length l)) + acc) 0 apps
  + 18900 * N.of_nat (size credits).

(** Two accounts, the address of the application, and the states of a
    short history: [alice] creates the application, deposits 100000 for
    herself, and registers identifiers. *)
Definition alice : bytes := replicate 32 Byte.x0a.
Definition bob : bytes := replicate 32 Byte.x0b.
Definition escreg_address : bytes := replicate 32 Byte.xee.

Definition funded : State :=
  mkState alice ∅ 0 {[alice := 81100]}.

Definition registered5 : State :=
  mkState alice {[deriveAddrPrefix padded_reverse 5 := [5]]} 1 {[alice := 73000]}.

Definition registered_both : State :=
  mkState alice {[deriveAddrPrefix padded_reverse 5 := [5; 4294967301]]} 2
          {[alice := 69800]}.

Definition registered0 : State :=
  mkState alice {[deriveAddrPrefix padded_reverse 0 := [0]]} 1 {[alice := 73000]}.

(** [registered_both] after the admin deleted the one bucket. *)
Definition emptied : State :=
  mkState alice ∅ 0 {[alice := 69800]}.

(** A network for the SDK: every simulation reports one application call
    that consumed 800, no group is ever confirmed, a group has the ids
    "tx", nothing is registered yet, and failed groups push their
    identifiers in the order of the groups. *)
Definition short_budget (group : list EscregSDK.Call) : EscregSDK.SimulateResponse :=
  EscregSDK.mkSimulateResponse [Some (EscregSDK.mkTxnResult "appl" None)] (Some 800%Z).

Definition never_confirmed (passIdx chunkIdx : nat) (group : list EscregSDK.Call) : bool :=
  false.

Definition some_txIDs (group : list EscregSDK.Call) : list string := ["tx"%string].

Definition none_registered (appIds : list N) : list (option N) := [].

Definition in_order (passIdx : nat) (groups : list (list N)) : list (list N) := groups.

(** A network on which the groups of the first pass fail and those of the
    later passes are confirmed. *)
Definition confirmed_on_retry (passIdx chunkIdx : nat) (group : list EscregSDK.Call) : bool :=
  negb (passIdx =? 1)%nat.

(** A simulation that answers the [getList] calls of a group from the state
    [s], and the values of the lookup that [register] makes on it. *)
Definition reads_of (s : State) (chunkIndex : nat) (calls : list (list bytes))
    : list (list N) :=
  (fun addresses => getList padded_reverse addresses s) <$> calls.

Definition lookup_values_of (s : State) (appIds : list N) : list (option N) :=
  snd <$> EscregSDK.lookup (reads_of s) (deriveAddr padded_reverse <$> appIds).

(** [funded] after [bob] deposited 100000 for himself: the 18900 of his box
    are taken from what he deposited. *)
Definition funded_bob : State :=
  mkState alice ∅ 0 (<[bob := 81100]> {[alice := 81100]}).

(** The passes of a run for [1; 2; 3] on [confirmed_on_retry]. *)
Definition retry_log : list EscregSDK.Pass :=
  [EscregSDK.mkPass 1 0 [([1; 2; 3], false)];
   EscregSDK.mkPass 2 3 [([1; 2; 3], true)]].

(** ** Auxiliary facts *)

Lemma bind_Ok {A B} (r : result A) (k : A -> result B) (b : B) :
  bind r k = Ok b -> exists a, r = Ok a /\ k a = Ok b.
Proof. destruct r as [a|e]; simpl; [eauto | discriminate]. Qed.

Lemma uint64_add_Ok a b c : uint64_add a b = Ok c -> c = a + b /\ is_uint64 c.
Proof.
  unfold uint64_add, is_uint64. destruct (N.leb_spec (a + b) uint64_max); [|discriminate].
  intros [= <-]. split; [reflexivity | assumption].
Qed.

Lemma uint64_sub_Ok a b c : uint64_sub a b = Ok c -> c = a - b /\ b <= a.
Proof.
  unfold uint64_sub. destruct (N.leb_spec b a); [|discriminate].
  intros [= <-]. split; [reflexivity | assumption].
Qed.

Lemma box_value_Ok {A} (o : option A) v : box_value o = Ok v -> o = Some v.
Proof. destruct o; simpl; congruence. Qed.

Ltac bind_inv H :=
  let a := fresh "a" in
  let Ha := fresh "Ha" in
  apply bind_Ok in H; destruct H as (a & Ha & H).

(** *** [itob] is injective on uint64 *)

Lemma to_N_byte_of_N n : Byte.to_N (byte_of_N n) = n mod 256.
Proof.
  unfold byte_of_N. destruct (Byte.of_N (n mod 256)) as [b|] eqn:E.
  - apply Byte.to_of_N. exact E.
  - apply Byte.of_N_None_iff in E.
    pose proof (N.mod_upper_bound n 256). lia.
Qed.

Lemma base256_digits n :
  n <= uint64_max ->
  (((((((0 * 256 + (n / 72057594037927936) mod 256) * 256
        + (n / 281474976710656) mod 256) * 256
       + (n / 1099511627776) mod 256) * 256
      + (n / 4294967296) mod 256) * 256
     + (n / 16777216) mod 256) * 256
    + (n / 65536) mod 256) * 256
   + (n / 256) mod 256) * 256
  + n mod 256 = n.
Proof.
  unfold uint64_max. intros Hn.
  pose proof (N.div_mod n 256 ltac:(lia)) as H0.
  set (q1 := n / 256) in *.
  pose proof (N.div_mod q1 256 ltac:(lia)) as H1.
  replace (n / 65536) with (q1 / 256)
    by (subst q1; rewrite N.Div0.div_div; reflexivity).
  set (q2 := q1 / 256) in *.
  pose proof (N.div_mod q2 256 ltac:(lia)) as H2.
  replace (n / 16777216) with (q2 / 256)
    by (subst q2 q1; rewrite !N.Div0.div_div; reflexivity).
  set (q3 := q2 / 256) in *.
  pose proof (N.div_mod q3 256 ltac:(lia)) as H3.
  replace (n / 4294967296) with (q3 / 256)
    by (subst q3 q2 q1; rewrite !N.Div0.div_div; reflexivity).
  set (q4 := q3 / 256) in *.
  pose proof (N.div_mod q4 256 ltac:(lia)) as H4.
  replace (n / 1099511627776) with (q4 / 256)
    by (subst q4 q3 q2 q1; rewrite !N.Div0.div_div; reflexivity).
  set (q5 := q4 / 256) in *.
  pose proof (N.div_mod q5 256 ltac:(lia)) as H5.
  replace (n / 281474976710656) with (q5 / 256)
    by (subst q5 q4 q3 q2 q1; rewrite !N.Div0.div_div; reflexivity).
  set (q6 := q5 / 256) in *.
  pose proof (N.div_mod q6 256 ltac:(lia)) as H6.
  replace (n / 72057594037927936) with (q6 / 256)
    by (subst q6 q5 q4 q3 q2 q1; rewrite !N.Div0.div_div; reflexivity).
  set (q7 := q6 / 256) in *.
  assert (q7 < 256) as H7.
  { subst q7 q6 q5 q4 q3 q2 q1. rewrite !N.Div0.div_div.
    apply N.Div0.div_lt_upper_bound. simpl. lia. }
  rewrite (N.mod_small q7 256) by assumption.
  generalize dependent (q1 mod 256). generalize dependent (q2 mod 256).
  generalize dependent (q3 mod 256). generalize dependent (q4 mod 256).
  generalize dependent (q5 mod 256). generalize dependent (q6 mod 256).
  generalize dependent (n mod 256).
  intros. lia.
Qed.

Lemma btoi_itob n : is_uint64 n -> btoi (itob n) = n.
Proof.
  unfold is_uint64, btoi, itob. intros Hn. simpl foldl.
  rewrite !to_N_byte_of_N.
  change (2 ^ 56) with 72057594037927936.
  change (2 ^ 48) with 281474976710656.
  change (2 ^ 40) with 1099511627776.
  change (2 ^ 32) with 4294967296.
  change (2 ^ 24) with 16777216.
  change (2 ^ 16) with 65536.
  change (2 ^ 8) with 256.
  apply base256_digits. exact Hn.
Qed.

Lemma itob_inj i j : is_uint64 i -> is_uint64 j -> itob i = itob j -> i = j.
Proof.
  intros Hi Hj E. rewrite <- (btoi_itob i Hi), <- (btoi_itob j Hj). now rewrite E.
Qed.

(** *** Sums of bucket lengths *)

Lemma bucket_total_insert_fresh (m : gmap bytes (list N)) key bucket :
  m !! key = None ->
  bucket_total (<[key := bucket]> m) = N.of_nat (length bucket) + bucket_total m.
Proof.
  intros Hk. unfold bucket_total. rewrite map_fold_insert_L; [reflexivity | | exact Hk].
  intros. lia.
Qed.

Lemma bucket_total_delete (m : gmap bytes (list N)) key bucket :
  m !! key = Some bucket ->
  bucket_total m = N.of_nat (length bucket) + bucket_total (delete key m).
Proof.
  intros Hk. unfold bucket_total.
  rewrite (map_fold_delete_L _ _ key bucket m); [reflexivity | | exact Hk].
  intros. lia.
Qed.

Lemma bucket_total_insert_existing (m : gmap bytes (list N)) key old bucket :
  m !! key = Some old ->
  bucket_total (<[key := bucket]> m) + N.of_nat (length old)
  = N.of_nat (length bucket) + bucket_total m.
Proof.
  intros Hk. rewrite <- insert_delete_eq.
  rewrite bucket_total_insert_fresh by apply lookup_delete_eq.
  rewrite (bucket_total_delete m key old Hk). lia.
Qed.

(** ** The registry: how each operation changes the index *)

Section Registry.

Variable sha512_256 : bytes -> bytes.
Variable minBalance : gmap bytes (list N) -> gmap bytes N -> N.
Variable currentApplicationAddress : bytes.

(** The hash has no collision among the 13-byte strings that [deriveAddr]
    feeds it, "appID" followed by the 8 bytes of an identifier: the usual
    assumption on SHA-512/256, without which two identifiers could own one
    address. *)
Hypothesis sha512_256_collision_free :
  forall x y : bytes,
    length x = 13%nat -> length y = 13%nat ->
    sha512_256 x = sha512_256 y -> x = y.

Abbreviation deriveAddr := (deriveAddr sha512_256).
Abbreviation deriveAddrPrefix := (deriveAddrPrefix sha512_256).
Abbreviation findAddr := (findAddr sha512_256).
Abbreviation registerStep := (registerStep sha512_256).
Abbreviation registerLoop := (registerLoop sha512_256).
Abbreviation register := (register sha512_256 minBalance).
Abbreviation registerList := (registerList sha512_256 minBalance).
Abbreviation manageMbrCredits := (manageMbrCredits minBalance).
Abbreviation get := (get sha512_256).
Abbreviation exists_ := (exists_ sha512_256).
Abbreviation mustGet := (mustGet sha512_256).
Abbreviation reachable := (reachable sha512_256 minBalance currentApplicationAddress).

Lemma deriveAddr_inj i j :
  is_uint64 i -> is_uint64 j -> deriveAddr i = deriveAddr j -> i = j.
Proof.
  intros Hi Hj E. apply sha512_256_collision_free in E; [|reflexivity..].
  apply app_inv_head in E. now apply itob_inj.
Qed.

Lemma prefix_of_deriveAddr i : take 4 (deriveAddr i) = deriveAddrPrefix i.
Proof. reflexivity. Qed.

Lemma scanExisting_spec existing appId :
  scanExisting existing appId = true <-> appId ∈ existing.
Proof.
  induction existing as [|e rest IH]; simpl.
  - split; [discriminate | intros H; inversion H].
  - destruct (N.eqb_spec e appId) as [->|Hne].
    + split; [intros _; constructor | reflexivity].
    + rewrite IH. split; [intros H; now constructor|].
      intros H. inversion H; subst; [congruence | assumption].
Qed.

Lemma scanExisting_false existing appId :
  scanExisting existing appId = false <-> appId ∉ existing.
Proof.
  rewrite <- scanExisting_spec. destruct (scanExisting existing appId); split; congruence.
Qed.

(** The settlement hook never touches the index. *)
Lemma manageMbrCredits_index mbrBefore sender s s' :
  manageMbrCredits mbrBefore sender s = Ok s' ->
  admin s' = admin s /\ apps s' = apps s /\ counter s' = counter s.
Proof.
  unfold manageMbrCredits. intros H.
  destruct (_ =? _); [injection H as <-; auto|].
  destruct (_ <? _).
  - bind_inv H. injection H as <-. auto.
  - bind_inv H. bind_inv H. bind_inv H. injection H as <-. auto.
Qed.

(** One registration step either finds the identifier in its bucket and
    changes nothing, or appends it and counts it. *)
Lemma registerStep_inv s appId s' :
  registerStep s appId = Ok s' ->
  let old := default [] (apps s !! deriveAddrPrefix appId) in
  (appId ∈ old /\ s' = s) \/
  ((appId ∉ old) /\ is_uint64 (counter s + 1) /\
   s' = mkState (admin s) (<[deriveAddrPrefix appId := old ++ [appId]]> (apps s))
                (counter s + 1) (userCredits s)).
Proof.
  unfold Escreg.registerStep. intros H.
  destruct (apps s !! _) as [existing|] eqn:E; simpl.
  - unfold appendAppId in H. rewrite E in H. simpl in H.
    destruct (scanExisting existing appId) eqn:Hscan.
    + left. injection H as <-. split; [now apply scanExisting_spec | reflexivity].
    + right. bind_inv H. apply uint64_add_Ok in Ha as [-> Hc]. injection H as <-.
      split; [now apply scanExisting_false|]. split; [exact Hc | reflexivity].
  - right. bind_inv H. apply uint64_add_Ok in Ha as [-> Hc]. injection H as <-.
    split; [intros Hin; inversion Hin|]. split; [exact Hc | reflexivity].
Qed.

(** After a registration step the identifier is in its bucket. *)
Lemma registerStep_member s appId s' :
  registerStep s appId = Ok s' ->
  exists bucket, apps s' !! deriveAddrPrefix appId = Some bucket /\ appId ∈ bucket.
Proof.
  intros H. pose proof (registerStep_inv _ _ _ H) as Hinv. simpl in Hinv.
  destruct Hinv as [[Hin ->] | (_ & _ & ->)].
  - destruct (apps s !! _) as [b|]; simpl in Hin; [eauto | inversion Hin].
  - simpl. rewrite lookup_insert_eq. eexists. split; [reflexivity|].
    apply elem_of_app. right. constructor.
Qed.

(** A registration step removes nothing. *)
Lemma registerStep_keeps s appId s' key bucket x :
  registerStep s appId = Ok s' ->
  apps s !! key = Some bucket -> x ∈ bucket ->
  exists bucket', apps s' !! key = Some bucket' /\ x ∈ bucket'.
Proof.
  intros H Hk Hx. pose proof (registerStep_inv _ _ _ H) as Hinv. simpl in Hinv.
  destruct Hinv as [[_ ->] | (_ & _ & ->)]; [eauto|].
  simpl. destruct (decide (deriveAddrPrefix appId = key)) as [<-|Hne].
  - rewrite lookup_insert_eq, Hk. simpl. eexists. split; [reflexivity|].
    apply elem_of_app. now left.
  - rewrite lookup_insert_ne by exact Hne. eauto.
Qed.

Lemma registerStep_index_ok s appId s' :
  is_uint64 appId -> index_ok s -> registerStep s appId = Ok s' -> index_ok s'.
Proof.
  intros Hid [Hc Hids] H. pose proof (registerStep_inv _ _ _ H) as Hinv. simpl in Hinv.
  destruct Hinv as [[_ ->] | (_ & _ & ->)]; [now split|].
  split; simpl.
  - destruct (apps s !! deriveAddrPrefix appId) as [old|] eqn:E; simpl.
    + pose proof (bucket_total_insert_existing (apps s) _ old (old ++ [appId]) E) as Ht.
      rewrite length_app in Ht. simpl in Ht. lia.
    + rewrite bucket_total_insert_fresh by exact E. simpl. lia.
  - intros key bucket. destruct (decide (deriveAddrPrefix appId = key)) as [<-|Hne].
    + rewrite lookup_insert_eq. intros [= <-]. apply Forall_app. split.
      * destruct (apps s !! deriveAddrPrefix appId) eqn:E; simpl; [eauto | constructor].
      * repeat constructor. exact Hid.
    + rewrite lookup_insert_ne by exact Hne. apply Hids.
Qed.

Lemma registerLoop_index_ok appIds : forall s s',
  Forall is_uint64 appIds -> index_ok s -> registerLoop appIds s = Ok s' -> index_ok s'.
Proof.
  induction appIds as [|a rest IH]; simpl; intros s s' Hids Hok H.
  - now injection H as <-.
  - bind_inv H. inversion Hids; subst.
    eapply IH; [eassumption | | exact H]. eapply registerStep_index_ok; eassumption.
Qed.

Lemma deleteLoop_index_ok boxKeys : forall s s',
  index_ok s -> deleteLoop boxKeys s = Ok s' -> index_ok s'.
Proof.
  induction boxKeys as [|key rest IH]; simpl; intros s s' Hok H.
  - now injection H as <-.
  - destruct (apps s !! key) as [bucket|] eqn:E; [|eauto].
    bind_inv H. apply uint64_sub_Ok in Ha as [-> Hle].
    eapply IH; [|exact H]. destruct Hok as [Hc Hids]. split; simpl.
    + rewrite (bucket_total_delete _ _ _ E) in Hc. lia.
    + intros k b Hk. apply lookup_delete_Some in Hk as [_ Hk]. eauto.
Qed.

Lemma index_ok_same_index s s' :
  apps s' = apps s -> counter s' = counter s -> index_ok s -> index_ok s'.
Proof. intros Ha Hc [H1 H2]. split; rewrite ?Ha, ?Hc; assumption. Qed.

Lemma exec_index_ok c sender s s' :
  valid_call c -> index_ok s ->
  exec sha512_256 minBalance currentApplicationAddress c sender s = Ok s' ->
  index_ok s'.
Proof.
  intros Hv Hok H. destruct c as [appId|appIds|boxKeys|creditor txn|]; simpl in *.
  - unfold Escreg.register in H. bind_inv H.
    apply manageMbrCredits_index in H as (_ & Hap & Hcn).
    eapply index_ok_same_index; [eassumption..|].
    eapply registerStep_index_ok; eassumption.
  - unfold Escreg.registerList in H. bind_inv H.
    apply manageMbrCredits_index in H as (_ & Hap & Hcn).
    eapply index_ok_same_index; [eassumption..|].
    eapply registerLoop_index_ok; eassumption.
  - unfold deleteBoxes in H. bind_inv H. eapply deleteLoop_index_ok; eassumption.
  - unfold depositCredits in H. bind_inv H. bind_inv H. bind_inv H.
    apply manageMbrCredits_index in H as (_ & Hap & Hcn).
    eapply index_ok_same_index; [exact Hap | exact Hcn |].
    eapply index_ok_same_index; [| | exact Hok]; reflexivity.
  - bind_inv H. injection H as <-. unfold withdrawCredits in Ha.
    bind_inv Ha. bind_inv Ha. bind_inv Ha. bind_inv Ha. injection Ha as <-.
    simpl. eapply index_ok_same_index; [| |exact Hok]; reflexivity.
Qed.

Lemma reachable_index_ok s : reachable s -> index_ok s.
Proof.
  induction 1 as [creator | s s' c sender _ IH Hv Hexec].
  - split; [reflexivity|]. intros key bucket Hk. simpl in Hk.
    rewrite lookup_empty in Hk. discriminate.
  - eapply exec_index_ok; eassumption.
Qed.

(** Lookup of a registered identifier's own address. *)
Lemma findAddr_member bucket i :
  is_uint64 i -> Forall is_uint64 bucket -> i ∈ bucket ->
  findAddr (deriveAddr i) bucket = i.
Proof.
  intros Hi. induction bucket as [|a rest IH]; intros Hall Hin; [inversion Hin|].
  simpl. inversion Hall; subst. case_bool_decide as E.
  - symmetry. now apply deriveAddr_inj.
  - apply IH; [assumption|]. inversion Hin; subst; [congruence | assumption].
Qed.

Lemma get_member s i bucket :
  is_uint64 i -> index_ok s ->
  apps s !! deriveAddrPrefix i = Some bucket -> i ∈ bucket ->
  get (deriveAddr i) s = i.
Proof.
  intros Hi [_ Hids] Hk Hin. unfold Escreg.get. rewrite prefix_of_deriveAddr, Hk.
  apply findAddr_member; eauto.
Qed.

Lemma register_inv appId sender s s' :
  register appId sender s = Ok s' ->
  exists s1, registerStep s appId = Ok s1 /\
             admin s' = admin s1 /\ apps s' = apps s1 /\ counter s' = counter s1.
Proof.
  unfold Escreg.register. intros H. bind_inv H.
  apply manageMbrCredits_index in H. eauto.
Qed.

Lemma register_index_ok s appId sender s' :
  is_uint64 appId -> index_ok s -> register appId sender s = Ok s' -> index_ok s'.
Proof.
  intros Hid Hok H.
  apply (exec_index_ok (CallRegister appId) sender s s'); assumption.
Qed.

Lemma get_registered s appId sender s' :
  is_uint64 appId -> index_ok s -> register appId sender s = Ok s' ->
  get (deriveAddr appId) s' = appId.
Proof.
  intros Hid Hok H. pose proof (register_index_ok _ _ _ _ Hid Hok H) as Hok'.
  apply register_inv in H as (s1 & Hstep & _ & Hap & _).
  apply registerStep_member in Hstep as (bucket & Hk & Hin).
  rewrite <- Hap in Hk. eapply get_member; eassumption.
Qed.

(** C1 (round trip).  In every reachable state, once [register i] has
    gone through, [get] of the address derived from [i] returns [i]. *)
Theorem register_get_roundtrip s i sender s' :
  reachable s -> is_uint64 i ->
  register i sender s = Ok s' ->
  get (deriveAddr i) s' = i.
Proof.
  intros Hr Hi H. eapply get_registered; [exact Hi | | exact H].
  now apply reachable_index_ok.
Qed.

(** C2 (collision correctness).  Two distinct identifiers whose addresses
    share their first four bytes and differ as a whole are both
    registered; looking up either address returns its own identifier and
    not the other one. *)
Theorem colliding_ids_resolved s i j sender1 sender2 s1 s2 :
  reachable s -> is_uint64 i -> is_uint64 j -> i <> j ->
  deriveAddrPrefix i = deriveAddrPrefix j ->
  deriveAddr i <> deriveAddr j ->
  register i sender1 s = Ok s1 ->
  register j sender2 s1 = Ok s2 ->
  (get (deriveAddr i) s2 = i /\ get (deriveAddr j) s2 = j) /\
  (get (deriveAddr i) s2 <> j /\ get (deriveAddr j) s2 <> i).
Proof.
  intros Hr Hi Hj Hne Hpre Hfull H1 H2.
  pose proof (reachable_index_ok _ Hr) as Hok.
  pose proof (register_index_ok _ _ _ _ Hi Hok H1) as Hok1.
  pose proof (register_index_ok _ _ _ _ Hj Hok1 H2) as Hok2.
  assert (get (deriveAddr j) s2 = j) as Gj
    by exact (get_registered _ _ _ _ Hj Hok1 H2).
  assert (get (deriveAddr i) s2 = i) as Gi.
  { apply register_inv in H1 as (t1 & Hstep1 & _ & Hap1 & _).
    apply registerStep_member in Hstep1 as (b1 & Hk1 & Hin1).
    rewrite <- Hap1 in Hk1.
    apply register_inv in H2 as (t2 & Hstep2 & _ & Hap2 & _).
    destruct (registerStep_keeps _ _ _ _ _ _ Hstep2 Hk1 Hin1) as (b2 & Hk2 & Hin2).
    rewrite <- Hap2 in Hk2. eapply get_member; eassumption. }
  rewrite Gi, Gj. repeat split; congruence.
Qed.

(** C3 (idempotence).  A second [register i] right after a first one goes
    through without error and leaves the whole state, so the bucket table
    and the counter, as the first call left it. *)
Theorem register_idempotent s i sender1 sender2 s1 :
  register i sender1 s = Ok s1 ->
  register i sender2 s1 = Ok s1.
Proof.
  intros H. apply register_inv in H as (t & Hstep & _ & Hap & _).
  apply registerStep_member in Hstep as (bucket & Hk & Hin).
  rewrite <- Hap in Hk.
  unfold Escreg.register, Escreg.registerStep. rewrite Hk.
  unfold appendAppId. rewrite Hk. simpl.
  apply scanExisting_spec in Hin. rewrite Hin. simpl.
  unfold Escreg.manageMbrCredits. now rewrite N.eqb_refl.
Qed.

(** C4 (counter invariant).  In every state reached from the initial one
    by calls of the contract, among them [register], [registerList] and
    [deleteBoxes], the counter is the sum of the lengths of the buckets. *)
Theorem counter_invariant s :
  reachable s -> counter s = bucket_total (apps s).
Proof. intros Hr. apply reachable_index_ok in Hr. apply Hr. Qed.

(** C5 (negative lookup).  For an address whose first four bytes key no
    bucket, [get] returns 0, [exists] returns false and [mustGet] fails
    with ERR:404. *)
Theorem negative_lookup s address :
  apps s !! take 4 address = None ->
  get address s = 0 /\
  exists_ address s = false /\
  mustGet address s = Err (ErrCode "ERR:404").
Proof.
  intros Hk. unfold Escreg.get, Escreg.exists_, Escreg.mustGet.
  rewrite Hk. repeat split.
Qed.

(** C10 (identifier 0).  After [register 0] the bucket of 0 holds 0, and
    the counter went up by one if 0 was not there before; yet [exists] of
    the address of 0 is false and [mustGet] fails with ERR:404, since 0 is
    what [findAddr] returns for no match. *)
Theorem identifier_zero_invisible s sender s' :
  reachable s ->
  register 0 sender s = Ok s' ->
  (exists bucket, apps s' !! deriveAddrPrefix 0 = Some bucket /\ 0 ∈ bucket) /\
  ((forall bucket, apps s !! deriveAddrPrefix 0 = Some bucket -> 0 ∉ bucket) ->
   counter s' = counter s + 1) /\
  exists_ (deriveAddr 0) s' = false /\
  mustGet (deriveAddr 0) s' = Err (ErrCode errAppNotRegistered).
Proof.
  intros Hr H.
  assert (is_uint64 0) as H0 by (unfold is_uint64, uint64_max; lia).
  pose proof (reachable_index_ok _ Hr) as Hok.
  pose proof (register_index_ok _ _ _ _ H0 Hok H) as Hok'.
  apply register_inv in H as (t & Hstep & _ & Hap & Hcn).
  pose proof (registerStep_member _ _ _ Hstep) as (bucket & Hk & Hin).
  rewrite <- Hap in Hk.
  assert (findAddr (deriveAddr 0) bucket = 0) as Hfind.
  { apply findAddr_member; [exact H0 | | exact Hin]. destruct Hok' as [_ Hids]. eauto. }
  split; [eauto|]. split.
  - intros Hfresh. rewrite Hcn.
    pose proof (registerStep_inv _ _ _ Hstep) as Hinv. simpl in Hinv.
    destruct Hinv as [[Hold _] | (_ & _ & ->)]; [|reflexivity].
    destruct (apps s !! deriveAddrPrefix 0) as [old|] eqn:E; simpl in Hold.
    + exfalso. exact (Hfresh old eq_refl Hold).
    + inversion Hold.
  - unfold Escreg.exists_, Escreg.mustGet.
    rewrite prefix_of_deriveAddr, Hk. simpl. rewrite Hfind. split; reflexivity.
Qed.

End Registry.

(** ** The credit ledger *)

Section Ledger.

Variable minBalance : gmap bytes (list N) -> gmap bytes N -> N.
Variable currentApplicationAddress : bytes.

Abbreviation mbr := (currentMinBalance minBalance).
Abbreviation manageMbrCredits := (manageMbrCredits minBalance).
Abbreviation depositCredits := (depositCredits minBalance currentApplicationAddress).
Abbreviation withdrawCredits := (withdrawCredits minBalance).

Lemma manageMbrCredits_unchanged s sender mbrBefore :
  mbr s = mbrBefore -> manageMbrCredits mbrBefore sender s = Ok s.
Proof.
  intros <-. unfold Escreg.manageMbrCredits. now rewrite N.eqb_refl.
Qed.

Lemma manageMbrCredits_growth s sender mbrBefore :
  mbrBefore < mbr s ->
  manageMbrCredits mbrBefore sender s =
    if mbr s - mbrBefore <=? balance s sender
    then Ok (set_userCredits <[sender := balance s sender - (mbr s - mbrBefore)]> s)
    else Err InsufficientCredit.
Proof.
  intros Hlt. unfold Escreg.manageMbrCredits, balance.
  destruct (N.eqb_spec (mbr s) mbrBefore) as [E|_]; [lia|].
  destruct (N.ltb_spec mbrBefore (mbr s)) as [_|]; [|lia].
  destruct (userCredits s !! sender); simpl; now destruct (_ <=? _).
Qed.

Lemma manageMbrCredits_shrink s sender mbrBefore :
  mbr s < mbrBefore ->
  manageMbrCredits mbrBefore sender s =
    match userCredits s !! sender with
    | None => Err ReceiverMismatch
    | Some v =>
        if v + (mbrBefore - mbr s) <=? uint64_max
        then Ok (set_userCredits <[sender := v + (mbrBefore - mbr s)]> s)
        else Err ErrPanic
    end.
Proof.
  intros Hlt. unfold Escreg.manageMbrCredits.
  destruct (N.eqb_spec (mbr s) mbrBefore) as [E|_]; [lia|].
  destruct (N.ltb_spec mbrBefore (mbr s)) as [|_]; [lia|].
  destruct (userCredits s !! sender) as [v|]; simpl; [|reflexivity].
  unfold uint64_add. now destruct (_ <=? _).
Qed.

(** The error of a call made for an owner without credit account: what
    [withdrawCredits] raises is the code that stands for [NoAccount]. *)
Lemma withdrawCredits_no_account s sender :
  userCredits s !! sender = None ->
  withdrawCredits sender s = Err NoAccount.
Proof. intros H. unfold Escreg.withdrawCredits. now rewrite H. Qed.

(** C6, amended.  The settlement hook compares the cost before with the
    cost now.  Unchanged: nothing happens.  Grown by [g]: it fails with
    ERR:CRD (InsufficientCredit) when the sender's balance, 0 without an
    account, is below [g], and otherwise debits exactly [g].  Shrunk by
    [r]: it fails with ERR:RCV, the code of ReceiverMismatch, when the
    sender has no account, and otherwise credits exactly [r] (the sum
    staying a uint64). *)
Theorem manageMbrCredits_settles s sender mbrBefore :
  (mbr s = mbrBefore -> manageMbrCredits mbrBefore sender s = Ok s) /\
  (mbrBefore < mbr s ->
     (balance s sender < mbr s - mbrBefore ->
        manageMbrCredits mbrBefore sender s = Err (ErrCode "ERR:CRD")) /\
     (mbr s - mbrBefore <= balance s sender ->
        manageMbrCredits mbrBefore sender s =
          Ok (set_userCredits <[sender := balance s sender - (mbr s - mbrBefore)]> s))) /\
  (mbr s < mbrBefore ->
     (userCredits s !! sender = None ->
        manageMbrCredits mbrBefore sender s = Err (ErrCode "ERR:RCV")) /\
     (forall v, userCredits s !! sender = Some v ->
        is_uint64 (v + (mbrBefore - mbr s)) ->
        manageMbrCredits mbrBefore sender s =
          Ok (set_userCredits <[sender := v + (mbrBefore - mbr s)]> s))).
Proof.
  split; [apply manageMbrCredits_unchanged|]. split.
  - intros Hlt. rewrite (manageMbrCredits_growth _ _ _ Hlt). split; intros Hb.
    + destruct (N.leb_spec (mbr s - mbrBefore) (balance s sender)); [lia | reflexivity].
    + destruct (N.leb_spec (mbr s - mbrBefore) (balance s sender)); [reflexivity | lia].
  - intros Hlt. rewrite (manageMbrCredits_shrink _ _ _ Hlt). split.
    + now intros ->.
    + intros v -> Hv. unfold is_uint64 in Hv.
      destruct (N.leb_spec (v + (mbrBefore - mbr s)) uint64_max); [reflexivity | lia].
Qed.

(** What [depositCredits] does once its two checks have passed. *)
Lemma depositCredits_checked s sender creditor txn :
  receiver txn = currentApplicationAddress -> 0 < amount txn ->
  is_uint64 (balance s creditor + amount txn) ->
  depositCredits creditor txn sender s =
    manageMbrCredits (mbr s) sender
      (set_userCredits <[creditor := balance s creditor + amount txn]> s).
Proof.
  intros Hr Ha Hv. unfold Escreg.depositCredits, balance in *.
  rewrite bool_decide_eq_true_2 by exact Hr. simpl.
  destruct (N.ltb_spec 0 (amount txn)) as [_|]; [|lia]. simpl.
  unfold uint64_add. unfold is_uint64 in Hv.
  destruct (userCredits s !! creditor); simpl in *;
    match goal with
    | |- context [?a <=? uint64_max] =>
        destruct (N.leb_spec a uint64_max); [reflexivity | lia]
    end.
Qed.

(** C7, amended.  [depositCredits] fails with ERR:RCV (ReceiverMismatch)
    when the payment does not go to the contract and, when it does, with
    ERR:AMT (ZeroAmount) when the amount is 0.  Otherwise the owner's
    balance becomes the old balance plus the amount, and the change of
    storage cost of this write is settled with the sender of the call:
    with no change of cost, as for an existing account, that is all; when
    the deposit creates the account and the cost grows by [g], [g] is
    debited from the deposit itself if the sender is the owner
    (self-funding), and from the sender's own account if the sender is
    someone else, the owner keeping the whole amount; the call fails with
    ERR:CRD when the balance debited is below [g]. *)
Theorem depositCredits_settles s sender creditor txn :
  (receiver txn <> currentApplicationAddress ->
     depositCredits creditor txn sender s = Err (ErrCode "ERR:RCV")) /\
  (receiver txn = currentApplicationAddress -> amount txn = 0 ->
     depositCredits creditor txn sender s = Err (ErrCode "ERR:AMT")) /\
  (receiver txn = currentApplicationAddress -> 0 < amount txn ->
   is_uint64 (balance s creditor + amount txn) ->
   let s1 := set_userCredits <[creditor := balance s creditor + amount txn]> s in
   let g := mbr s1 - mbr s in
   (mbr s1 = mbr s -> depositCredits creditor txn sender s = Ok s1) /\
   (mbr s < mbr s1 -> userCredits s !! creditor = None ->
      (sender = creditor ->
         (amount txn < g ->
            depositCredits creditor txn sender s = Err (ErrCode "ERR:CRD")) /\
         (g <= amount txn ->
            depositCredits creditor txn sender s =
              Ok (set_userCredits <[creditor := amount txn - g]> s))) /\
      (sender <> creditor ->
         (balance s sender < g ->
            depositCredits creditor txn sender s = Err (ErrCode "ERR:CRD")) /\
         (g <= balance s sender ->
            depositCredits creditor txn sender s =
              Ok (set_userCredits
                    (fun credits => <[sender := balance s sender - g]>
                                      (<[creditor := amount txn]> credits)) s))))).
Proof.
  split; [|split].
  - intros Hr. unfold Escreg.depositCredits.
    now rewrite bool_decide_eq_false_2 by exact Hr.
  - intros Hr Ha. unfold Escreg.depositCredits.
    rewrite bool_decide_eq_true_2 by exact Hr. now rewrite Ha.
  - intros Hr Ha Hv s1 g. rewrite (depositCredits_checked _ _ _ _ Hr Ha Hv).
    fold s1. split; [intros E; now apply manageMbrCredits_unchanged|].
    intros Hlt Hnew. rewrite (manageMbrCredits_growth _ _ _ Hlt). fold g.
    assert (balance s creditor = 0) as Hb0 by (unfold balance; now rewrite Hnew).
    split.
    + intros ->. assert (balance s1 creditor = amount txn) as Hb1.
      { unfold balance, s1. simpl. rewrite lookup_insert_eq, Hb0. reflexivity. }
      rewrite Hb1. split; intros Hcmp.
      * destruct (N.leb_spec g (amount txn)); [lia | reflexivity].
      * destruct (N.leb_spec g (amount txn)); [|lia].
        unfold s1, set_userCredits. simpl. now rewrite insert_insert_eq.
    + intros Hne. assert (balance s1 sender = balance s sender) as Hb1.
      { unfold balance, s1. simpl. now rewrite lookup_insert_ne by congruence. }
      rewrite Hb1. split; intros Hcmp.
      * destruct (N.leb_spec g (balance s sender)); [lia | reflexivity].
      * destruct (N.leb_spec g (balance s sender)); [|lia].
        unfold s1, set_userCredits. simpl. now rewrite Hb0.
Qed.

End Ledger.

(** ** The SDK: budget negotiation *)

Section Negotiation.

Import EscregSDK.
Local Open Scope Z_scope.

Lemma ceil_div_spec a b q :
  0 < b -> ceil_div a b = q <-> (q - 1) * b < a <= q * b.
Proof.
  intros Hb. unfold ceil_div.
  pose proof (Z.div_mod (- a) b ltac:(lia)) as Hdm.
  pose proof (Z.mod_pos_bound (- a) b Hb) as Hm.
  split; [intros <-; nia | intros [H1 H2]; nia].
Qed.

Lemma addRegisterListCalls_app appIdChunk builder :
  addRegisterListCalls appIdChunk builder
  = builder ++ addRegisterListCalls appIdChunk [].
Proof.
  unfold addRegisterListCalls. revert builder.
  induction appIdChunk as [|c rest IH]; intros builder; simpl.
  - now rewrite app_nil_r.
  - rewrite IH, (IH [_]). now rewrite <- app_assoc.
Qed.

(** What the negotiator returns when the budget falls short. *)
Lemma getIncreaseBudgetBuilder_short simulate builder :
  let response := simulate builder in
  let consumed := default 0 (appBudgetConsumed response) in
  let available := 700 * countAppCalls (txnResults response) in
  available < consumed ->
  exists n,
    getIncreaseBudgetBuilder simulate builder []
      = Some [IncreaseBudgetCall n (n * 1000) ((n + 1) * 1000)] /\
    0 <= n /\
    (n - 1) * 678 < consumed - available - 674 <= n * 678.
Proof.
  intros response consumed available Hlt.
  unfold getIncreaseBudgetBuilder. fold response. fold consumed. fold available.
  destruct (Z.leb_spec consumed available) as [|_]; [lia|].
  unfold increaseBudgetBaseCost, increaseBudgetIncrementCost.
  change (700 - 26) with 674. change (700 - 22) with 678.
  set (q := ceil_div (consumed - (available + 674)) 678).
  assert ((q - 1) * 678 < consumed - (available + 674) <= q * 678) as Hq
    by (apply ceil_div_spec; [lia | reflexivity]).
  assert (0 <= q) as Hq0 by lia.
  rewrite Z.max_r by exact Hq0.
  exists q. simpl. split; [reflexivity|]. lia.
Qed.

(** C8, amended.  One simulation of the group decides.  When the budget
    consumed is at most 700 for each call-equivalent (a call of the group
    and each of its inner transactions), the negotiator returns nothing
    and the group is submitted as built.  Otherwise exactly one
    [increaseBudget n] call is put in front of the same calls, with fee
    allowance [n * 1000] for its [n] sub-calls, where [n] is the least
    number, from 0 on, for which 700 - 26 for the added call itself and
    700 - 22 for each of its sub-calls cover the shortfall. *)
Theorem budget_negotiation simulate groupChunk :
  let group := addRegisterListCalls (chunk groupChunk 7) [] in
  let response := simulate group in
  let consumed := default 0 (appBudgetConsumed response) in
  let available := 700 * countAppCalls (txnResults response) in
  (consumed <= available ->
     getIncreaseBudgetBuilder simulate group [] = None /\
     buildGroup simulate groupChunk = group) /\
  (available < consumed ->
     exists n,
       buildGroup simulate groupChunk
         = IncreaseBudgetCall n (n * 1000) ((n + 1) * 1000) :: group /\
       n = ceil_div (consumed - available - (700 - 26)) (700 - 22) /\
       0 <= n /\
       consumed <= available + (700 - 26) + n * (700 - 22) /\
       (forall m, 0 <= m -> consumed <= available + (700 - 26) + m * (700 - 22) -> n <= m)).
Proof.
  intros group response consumed available. split.
  - intros Hle.
    assert (getIncreaseBudgetBuilder simulate group [] = None) as E.
    { unfold getIncreaseBudgetBuilder. fold response. fold consumed. fold available.
      destruct (Z.leb_spec consumed available); [reflexivity | lia]. }
    split; [exact E|]. unfold buildGroup. fold group. now rewrite E.
  - intros Hlt.
    destruct (getIncreaseBudgetBuilder_short simulate group Hlt) as (n & E & Hn & Hc).
    fold response consumed available in Hc.
    exists n. split; [|split; [|split; [exact Hn | split; [lia | intros m Hm Hcov; lia]]]].
    + unfold buildGroup. fold group. rewrite E.
      now rewrite addRegisterListCalls_app.
    + symmetry. apply ceil_div_spec; [lia|]. lia.
Qed.

End Negotiation.

(** ** The SDK: the retry passes of [register] *)

Section Retry.

Import EscregSDK.

Variable simulate : nat -> nat -> list Call -> SimulateResponse.
Variable send : nat -> nat -> list Call -> bool.
Variable txIDs : list Call -> list string.
Variable lookupValues : list N -> list (option N).
Variable completion : nat -> list (list N) -> list (list N).

(** Every failed group pushes its identifiers once, in some order. *)
Hypothesis completion_permutes :
  forall passIdx groups, completion passIdx groups ≡ₚ groups.

Abbreviation register := (register simulate send txIDs lookupValues completion).
Abbreviation runPass := (runPass simulate send txIDs).
Abbreviation passResults := (passResults simulate send txIDs).
Abbreviation failedAppIds := (failedAppIds completion).
Abbreviation checkedIds := (checkedIds lookupValues).

Lemma chunkLoop_concat {A} fuel : forall (array : list A) size,
  (length array <= fuel)%nat -> concat (chunkLoop fuel array size) = array.
Proof.
  induction fuel as [|fuel IH]; intros array size Hlen.
  - destruct array; [reflexivity | simpl in Hlen; lia].
  - destruct array as [|a rest]; [reflexivity|].
    cbn [chunkLoop concat]. rewrite IH; [apply take_drop|].
    rewrite length_drop. simpl in *. lia.
Qed.

Lemma chunk_concat {A} (array : list A) size : concat (chunk array size) = array.
Proof. apply chunkLoop_concat. lia. Qed.

Lemma length_concat_sum {A} (ls : list (list A)) :
  length (concat ls) = sum_list (length <$> ls).
Proof.
  induction ls as [|l ls IH]; [reflexivity|].
  simpl. rewrite length_app, IH. reflexivity.
Qed.

Lemma concat_permutation {A} (ls ks : list (list A)) :
  ls ≡ₚ ks -> concat ls ≡ₚ concat ks.
Proof.
  induction 1 as [|x l k _ IH|x y l|l k m _ IH1 _ IH2]; simpl.
  - reflexivity.
  - now rewrite IH.
  - rewrite !app_assoc. f_equiv. apply Permutation_app_comm.
  - now rewrite IH1.
Qed.

Lemma pass_ids_runPass passIdx prev appIds :
  pass_ids (runPass passIdx prev appIds) = appIds.
Proof.
  unfold pass_ids, EscregSDK.runPass. simpl.
  rewrite !fmap_imap.
  rewrite (imap_ext _ (const id) (chunk appIds (7 * 15))) by reflexivity.
  rewrite imap_const, list_fmap_id. apply chunk_concat.
Qed.

Lemma failed_groups_le (groups : list (list N * bool)) :
  (sum_list (length <$> failed_groups groups)
   <= sum_list (length <$> (fst <$> groups)))%nat.
Proof.
  unfold failed_groups. induction groups as [|[g ok] rest IH]; [reflexivity|].
  rewrite filter_cons. destruct (decide _); rewrite !fmap_cons; simpl; lia.
Qed.

Lemma pass_fails_le passIdx prev appIds :
  (pass_fails (runPass passIdx prev appIds) <= length appIds)%nat.
Proof.
  unfold pass_fails. etransitivity; [apply failed_groups_le|].
  rewrite <- length_concat_sum.
  change (concat (fst <$> pass_groups (runPass passIdx prev appIds)))
    with (pass_ids (runPass passIdx prev appIds)).
  now rewrite pass_ids_runPass.
Qed.

Lemma failedAppIds_permutation (this : Pass) :
  failedAppIds this ≡ₚ concat (failed_groups (pass_groups this)).
Proof. apply concat_permutation, completion_permutes. Qed.

Lemma length_failedAppIds (this : Pass) :
  length (failedAppIds this) = pass_fails this.
Proof.
  rewrite (Permutation_length (failedAppIds_permutation this)).
  apply length_concat_sum.
Qed.

Lemma failed_groups_all (groups : list (list N * bool)) :
  Forall (fun g => snd g = false) groups ->
  failed_groups groups = fst <$> groups.
Proof.
  intros H. unfold failed_groups. f_equal.
  induction H as [|g rest Hg _ IH]; [reflexivity|].
  rewrite filter_cons_True by exact Hg. now rewrite IH.
Qed.

(** When no group goes through, every identifier of the pass fails. *)
Lemma pass_fails_all passIdx prev appIds :
  (forall p i g, send p i g = false) ->
  pass_fails (runPass passIdx prev appIds) = length appIds.
Proof.
  intros Hsend. unfold pass_fails. rewrite failed_groups_all.
  - rewrite <- length_concat_sum.
    change (concat (fst <$> pass_groups (runPass passIdx prev appIds)))
      with (pass_ids (runPass passIdx prev appIds)).
    now rewrite pass_ids_runPass.
  - unfold EscregSDK.runPass. simpl. rewrite fmap_imap.
    apply Forall_forall. intros g Hg.
    apply list_elem_of_lookup in Hg as [i Hi].
    rewrite list_lookup_imap in Hi.
    destruct (chunk appIds (7 * 15) !! i); simplify_eq/=. apply Hsend.
Qed.

(** The four ways a pass ends. *)
Lemma register_nothing fuel appIds skip passIdx prev :
  checkedIds skip appIds = [] ->
  register (S fuel) appIds skip passIdx prev = Some ([], Returned []).
Proof. intros E. simpl. now rewrite E. Qed.

Lemma register_abort fuel appIds skip passIdx prev :
  let ids := checkedIds skip appIds in
  let this := runPass passIdx prev ids in
  ids <> [] -> pass_fails this <> 0%nat -> pass_fails this = prev ->
  register (S fuel) appIds skip passIdx prev
    = Some ([this], Thrown (PersistentBatchFailure passIdx (pass_fails this))).
Proof.
  intros ids this Hne Hf Hp. simpl. fold ids. destruct ids as [|i ids']; [congruence|].
  fold this. destruct (Nat.eqb_spec (pass_fails this) 0); [congruence|].
  destruct (Nat.eqb_spec (pass_fails this) prev); [reflexivity | congruence].
Qed.

Lemma register_done fuel appIds skip passIdx prev :
  let ids := checkedIds skip appIds in
  let this := runPass passIdx prev ids in
  ids <> [] -> pass_fails this = 0%nat ->
  register (S fuel) appIds skip passIdx prev
    = Some ([this], Returned (concat (passResults passIdx ids))).
Proof.
  intros ids this Hne Hf. simpl. fold ids. destruct ids as [|i ids']; [congruence|].
  fold this. rewrite Hf. reflexivity.
Qed.

Lemma register_again fuel appIds skip passIdx prev :
  let ids := checkedIds skip appIds in
  let this := runPass passIdx prev ids in
  ids <> [] -> pass_fails this <> 0%nat -> pass_fails this <> prev ->
  register (S fuel) appIds skip passIdx prev
    = match register fuel (failedAppIds this) true (passIdx + 1) (pass_fails this) with
      | None => None
      | Some (later, Thrown e) => Some (this :: later, Thrown e)
      | Some (later, Returned nextResults) =>
          Some (this :: later,
                Returned (concat (passResults passIdx ids ++ [nextResults])))
      end.
Proof.
  intros ids this Hne Hf Hp. simpl. fold ids. destruct ids as [|i ids']; [congruence|].
  fold this. destruct (Nat.eqb_spec (pass_fails this) 0); [congruence|].
  destruct (Nat.eqb_spec (pass_fails this) prev); [congruence | reflexivity].
Qed.

Lemma length_checkedIds skip appIds :
  (length (checkedIds skip appIds) <= length appIds)%nat.
Proof.
  unfold EscregSDK.checkedIds, dropExisting. destruct skip; [lia|].
  rewrite length_fmap. etransitivity; [apply length_filter|].
  now rewrite length_imap.
Qed.

Lemma nonempty_length {A} (l : list A) : l <> [] <-> length l <> 0%nat.
Proof. destruct l; simpl; split; congruence. Qed.

(** The first pass of a retry call is the pass over the identifiers it
    was given. *)
Lemma register_head fuel appIds passIdx prev this later out :
  register fuel appIds true passIdx prev = Some (this :: later, out) ->
  this = runPass passIdx prev appIds.
Proof.
  destruct fuel as [|fuel]; [discriminate|].
  destruct (decide (appIds = [])) as [->|Hne]; [discriminate|].
  set (p := runPass passIdx prev appIds).
  destruct (decide (pass_fails p = 0%nat)) as [H0|H0].
  { rewrite (register_done fuel appIds true passIdx prev Hne H0). now intros [= <- _ _]. }
  destruct (decide (pass_fails p = prev)) as [Hp|Hp].
  { rewrite (register_abort fuel appIds true passIdx prev Hne H0 Hp). now intros [= <- _ _]. }
  rewrite (register_again fuel appIds true passIdx prev Hne H0 Hp).
  destruct (register fuel _ true _ _) as [[later' [ids|e]]|]; [| |discriminate];
    now intros [= <- _ _].
Qed.

(** Enough passes are allowed: one more than there are identifiers, or as
    many when the count of the previous pass is the number of
    identifiers. *)
Lemma register_enough_fuel fuel : forall appIds skip passIdx prev,
  (length appIds < fuel)%nat \/
  (prev = length appIds /\ (1 <= length appIds <= fuel)%nat) ->
  is_Some (register fuel appIds skip passIdx prev).
Proof.
  induction fuel as [|fuel IH]; intros appIds skip passIdx prev Hfuel; [lia|].
  set (ids := checkedIds skip appIds).
  pose proof (length_checkedIds skip appIds) as Hids. fold ids in Hids.
  destruct (decide (ids = [])) as [E|Hne].
  { rewrite (register_nothing fuel appIds skip passIdx prev E). eauto. }
  set (p := runPass passIdx prev ids).
  pose proof (pass_fails_le passIdx prev ids) as Hle. fold p in Hle.
  destruct (decide (pass_fails p = 0%nat)) as [H0|H0].
  { rewrite (register_done fuel appIds skip passIdx prev Hne H0). eauto. }
  destruct (decide (pass_fails p = prev)) as [Hp|Hp].
  { rewrite (register_abort fuel appIds skip passIdx prev Hne H0 Hp). eauto. }
  rewrite (register_again fuel appIds skip passIdx prev Hne H0 Hp). fold ids. fold p.
  destruct (IH (failedAppIds p) true (passIdx + 1)%nat (pass_fails p)) as [[later out] E].
  { right. rewrite length_failedAppIds. split; [reflexivity | lia]. }
  rewrite E. destruct out; eauto.
Qed.

(** Consecutive passes of a run. *)
Lemma register_chain fuel : forall appIds skip passIdx prev log out,
  register fuel appIds skip passIdx prev = Some (log, out) ->
  forall l1 p1 p2 l2, log = l1 ++ p1 :: p2 :: l2 ->
    pass_ids p2 ≡ₚ concat (failed_groups (pass_groups p1)) /\
    pass_index p2 = (pass_index p1 + 1)%nat /\
    pass_prev_fails p2 = pass_fails p1 /\
    (pass_fails p2 = pass_fails p1 ->
       l2 = [] /\
       out = Thrown (PersistentBatchFailure (pass_index p2) (pass_fails p2))).
Proof.
  induction fuel as [|fuel IH]; intros appIds skip passIdx prev log out Hrun;
    [discriminate|].
  set (ids := checkedIds skip appIds) in *.
  intros l1 p1 p2 l2 Hlog.
  assert (forall (x : Pass), [x] <> l1 ++ p1 :: p2 :: l2) as Hsingle.
  { intros x Hx. apply (f_equal length) in Hx. rewrite length_app in Hx.
    simpl in Hx. lia. }
  destruct (decide (ids = [])) as [E|Hne].
  { rewrite (register_nothing fuel appIds skip passIdx prev E) in Hrun.
    injection Hrun as <- <-. now destruct l1. }
  set (p := runPass passIdx prev ids).
  destruct (decide (pass_fails p = 0%nat)) as [H0|H0].
  { rewrite (register_done fuel appIds skip passIdx prev Hne H0) in Hrun.
    injection Hrun as <- <-. now apply Hsingle in Hlog. }
  destruct (decide (pass_fails p = prev)) as [Hp|Hp].
  { rewrite (register_abort fuel appIds skip passIdx prev Hne H0 Hp) in Hrun.
    injection Hrun as <- <-. now apply Hsingle in Hlog. }
  rewrite (register_again fuel appIds skip passIdx prev Hne H0 Hp) in Hrun.
  fold ids in Hrun. fold p in Hrun.
  destruct (register fuel (failedAppIds p) true (passIdx + 1)%nat (pass_fails p))
    as [[later out']|] eqn:Hinner; [|discriminate].
  assert (log = p :: later /\
          (forall e, out' = Thrown e -> out = Thrown e)) as [-> Hout].
  { destruct out'; injection Hrun as <- <-; split; congruence. }
  destruct l1 as [|q l1'].
  - simpl in Hlog. injection Hlog as <- ->.
    pose proof (register_head _ _ _ _ _ _ _ Hinner) as ->.
    rewrite pass_ids_runPass. split; [apply failedAppIds_permutation|].
    split; [reflexivity|]. split; [reflexivity|].
    intros Hsame.
    assert (failedAppIds p <> []) as Hne'
      by (apply nonempty_length; rewrite length_failedAppIds; exact H0).
    assert (pass_fails (runPass (passIdx + 1) (pass_fails p) (failedAppIds p)) <> 0%nat)
      as Hnz by (rewrite Hsame; exact H0).
    destruct fuel as [|fuel']; [discriminate|].
    rewrite (register_abort fuel' (failedAppIds p) true (passIdx + 1)%nat (pass_fails p)
               Hne' Hnz Hsame) in Hinner.
    injection Hinner as <- <-. split; [reflexivity|]. now apply Hout.
  - simpl in Hlog. injection Hlog as <- ->.
    destruct (IH _ _ _ _ _ _ Hinner l1' p1 p2 l2 eq_refl) as (Hids & Hidx & Hprev & Hab).
    split; [exact Hids|]. split; [exact Hidx|]. split; [exact Hprev|].
    intros Hsame. destruct (Hab Hsame) as [-> Ho]. split; [reflexivity|].
    now apply Hout.
Qed.

(** When no group ever goes through, the second pass gives up. *)
Lemma register_all_fail fuel appIds skip passIdx :
  (forall p i g, send p i g = false) ->
  checkedIds skip appIds <> [] ->
  exists p1 p2,
    register (S (S fuel)) appIds skip passIdx 0
    = Some ([p1; p2],
            Thrown (PersistentBatchFailure (passIdx + 1)
                      (length (checkedIds skip appIds)))).
Proof.
  intros Hsend Hne. set (ids := checkedIds skip appIds) in *.
  set (p := runPass passIdx 0 ids).
  assert (pass_fails p = length ids) as Hf by (apply pass_fails_all, Hsend).
  assert (length ids <> 0%nat) as Hn by now apply nonempty_length.
  rewrite (register_again (S fuel) appIds skip passIdx 0 Hne); fold ids; fold p;
    [|lia..].
  set (p' := runPass (passIdx + 1) (pass_fails p) (failedAppIds p)).
  assert (pass_fails p' = pass_fails p) as Hf'.
  { unfold p'. rewrite (pass_fails_all _ _ _ Hsend). apply length_failedAppIds. }
  assert (failedAppIds p <> []) as Hne'
    by (apply nonempty_length; rewrite length_failedAppIds; lia).
  assert (pass_fails p' <> 0%nat) as Hnz by lia.
  rewrite (register_abort fuel (failedAppIds p) true (passIdx + 1)%nat (pass_fails p)
             Hne' Hnz Hf').
  exists p, p'. replace (length ids) with (pass_fails p') by lia. reflexivity.
Qed.

(** C9 (batch retry termination).  A run of [register] ends after at most
    one pass more than there are identifiers.  A pass after the first is
    over the identifiers of the failed groups of the pass before it and
    no others; if as many fail in it as failed in the pass before, it is
    the last pass and the run ends with PersistentBatchFailure.  When no
    group ever goes through, the run ends with PersistentBatchFailure in
    its second pass. *)
Theorem register_retry_terminates :
  (forall appIds skip passIdx prev,
     is_Some (register (S (length appIds)) appIds skip passIdx prev)) /\
  (forall fuel appIds skip passIdx prev log out,
     register fuel appIds skip passIdx prev = Some (log, out) ->
     forall l1 p1 p2 l2, log = l1 ++ p1 :: p2 :: l2 ->
       pass_ids p2 ≡ₚ concat (failed_groups (pass_groups p1)) /\
       (pass_fails p2 = pass_fails p1 ->
          l2 = [] /\
          out = Thrown (PersistentBatchFailure (pass_index p2) (pass_fails p2)))) /\
  ((forall p i g, send p i g = false) ->
   forall fuel appIds skip passIdx,
     checkedIds skip appIds <> [] ->
     exists p1 p2,
       register (S (S fuel)) appIds skip passIdx 0
       = Some ([p1; p2],
               Thrown (PersistentBatchFailure (passIdx + 1)
                         (length (checkedIds skip appIds))))).
Proof.
  split; [|split].
  - intros. apply register_enough_fuel. left. lia.
  - intros fuel appIds skip passIdx prev log out Hrun l1 p1 p2 l2 Hlog.
    destruct (register_chain _ _ _ _ _ _ _ Hrun _ _ _ _ Hlog) as (H1 & _ & _ & H2).
    split; assumption.
  - intros Hsend fuel appIds skip passIdx Hne. now apply register_all_fail.
Qed.

End Retry.

(** ** The model on concrete inputs *)

Lemma padded_reverse_collision_free (x y : bytes) :
  length x = 13%nat -> length y = 13%nat ->
  padded_reverse x = padded_reverse y -> x = y.
Proof.
  intros Hx Hy. unfold padded_reverse.
  rewrite !take_app, !length_reverse, Hx, Hy.
  rewrite (take_ge (reverse x)) by (rewrite length_reverse; lia).
  rewrite (take_ge (reverse y)) by (rewrite length_reverse; lia).
  intros E. apply app_inv_tail in E.
  rewrite <- (reverse_involutive x), <- (reverse_involutive y). now rewrite E.
Qed.

Lemma reachable_funded :
  reachable padded_reverse box_min_balance escreg_address funded.
Proof.
  apply (reachable_step _ _ _ (initial_state alice) funded
           (CallDepositCredits alice (mkPayment escreg_address 100000)) alice).
  - constructor.
  - vm_compute. discriminate.
  - vm_compute. reflexivity.
Qed.

(** The first identifier of a bucket costs 8100 of credit, a further one
    3200. *)
Example register_5 :
  register padded_reverse box_min_balance 5 alice funded = Ok registered5.
Proof. vm_compute. reflexivity. Qed.

Example register_colliding :
  register padded_reverse box_min_balance 4294967301 alice registered5 = Ok registered_both.
Proof. vm_compute. reflexivity. Qed.

Example register_0 :
  register padded_reverse box_min_balance 0 alice funded = Ok registered0.
Proof. vm_compute. reflexivity. Qed.

(** The batch [5; 5 + 2^32; 5] registers both identifiers once. *)
Lemma reachable_batch :
  reachable padded_reverse box_min_balance escreg_address registered_both.
Proof.
  apply (reachable_step _ _ _ funded registered_both
           (CallRegisterList [5; 4294967301; 5]) alice).
  - exact reachable_funded.
  - repeat constructor; vm_compute; discriminate.
  - vm_compute. reflexivity.
Qed.

Lemma reachable_emptied :
  reachable padded_reverse box_min_balance escreg_address emptied.
Proof.
  apply (reachable_step _ _ _ registered_both emptied
           (CallDeleteBoxes [deriveAddrPrefix padded_reverse 5;
                             deriveAddrPrefix padded_reverse 5]) alice).
  - exact reachable_batch.
  - exact I.
  - vm_compute. reflexivity.
Qed.

(** *** The tests of the repository, replayed *)

(** "depositCredits deducts box MBR on first deposit". *)
Example deposit_deducts_box_mbr :
  depositCredits box_min_balance escreg_address alice (mkPayment escreg_address 500000)
    alice (initial_state alice)
  = Ok (mkState alice ∅ 0 {[alice := 481100]}).
Proof. vm_compute. reflexivity. Qed.

(** "depositCredits accumulates on second deposit". *)
Example deposit_accumulates :
  depositCredits box_min_balance escreg_address alice (mkPayment escreg_address 200000)
    alice (mkState alice ∅ 0 {[alice := 281100]})
  = Ok (mkState alice ∅ 0 {[alice := 481100]}).
Proof. vm_compute. reflexivity. Qed.

(** "withdrawCredits returns credits and deletes box": the 18900 of the box
    come back with the balance. *)
Example withdraw_returns_all :
  withdrawCredits box_min_balance alice (mkState alice ∅ 0 {[alice := 481100]})
  = Ok (initial_state alice, 500000).
Proof. vm_compute. reflexivity. Qed.

(** "withdrawCredits fails without prior deposit". *)
Example withdraw_without_deposit :
  withdrawCredits box_min_balance alice (initial_state alice) = Err (ErrCode "ERR:AMT").
Proof. reflexivity. Qed.

(** "register fails with insufficient credits (ERR:CRD)": 18900 pay for the
    credit box and leave nothing for an [apps] box. *)
Example register_without_credit :
  register padded_reverse box_min_balance 1002 alice (mkState alice ∅ 0 {[alice := 0]})
  = Err (ErrCode "ERR:CRD").
Proof. vm_compute. reflexivity. Qed.

(** "deleteBoxes fails for non-admin (ERR:AUTH)". *)
Example deleteBoxes_not_admin :
  deleteBoxes [deriveAddrPrefix padded_reverse 5] bob registered5 = Err (ErrCode "ERR:AUTH").
Proof. vm_compute. reflexivity. Qed.

(** C1 at identifier 5. *)
Lemma register_get_roundtrip_witness :
  get padded_reverse (deriveAddr padded_reverse 5) registered5 = 5.
Proof.
  apply (register_get_roundtrip padded_reverse box_min_balance escreg_address
           padded_reverse_collision_free funded 5 alice registered5).
  - exact reachable_funded.
  - vm_compute. discriminate.
  - vm_compute. reflexivity.
Defined.

(** C2 at 5 and 5 + 2^32, which share the bucket key 05 00 00 00. *)
Lemma colliding_ids_resolved_witness :
  (get padded_reverse (deriveAddr padded_reverse 5) registered_both = 5 /\
   get padded_reverse (deriveAddr padded_reverse 4294967301) registered_both = 4294967301) /\
  (get padded_reverse (deriveAddr padded_reverse 5) registered_both <> 4294967301 /\
   get padded_reverse (deriveAddr padded_reverse 4294967301) registered_both <> 5).
Proof.
  apply (colliding_ids_resolved padded_reverse box_min_balance escreg_address
           padded_reverse_collision_free funded 5 4294967301 alice alice
           registered5 registered_both).
  - exact reachable_funded.
  - vm_compute. discriminate.
  - vm_compute. discriminate.
  - discriminate.
  - vm_compute. reflexivity.
  - vm_compute. discriminate.
  - vm_compute. reflexivity.
  - vm_compute. reflexivity.
Defined.

(** C3: [bob] registers 5 again. *)
Lemma register_idempotent_witness :
  register padded_reverse box_min_balance 5 bob registered5 = Ok registered5.
Proof.
  apply (register_idempotent padded_reverse box_min_balance funded 5 alice bob registered5).
  vm_compute. reflexivity.
Defined.

(** C4 after a batch registration, and after the deletion of its bucket. *)
Lemma counter_invariant_witness :
  counter registered_both = bucket_total (apps registered_both) /\
  counter emptied = bucket_total (apps emptied).
Proof.
  split.
  - apply (counter_invariant padded_reverse box_min_balance escreg_address registered_both).
    exact reachable_batch.
  - apply (counter_invariant padded_reverse box_min_balance escreg_address emptied).
    exact reachable_emptied.
Defined.

(** C5: the address of 7 in a state that holds only 5. *)
Lemma negative_lookup_witness :
  get padded_reverse (deriveAddr padded_reverse 7) registered5 = 0 /\
  exists_ padded_reverse (deriveAddr padded_reverse 7) registered5 = false /\
  mustGet padded_reverse (deriveAddr padded_reverse 7) registered5 = Err (ErrCode "ERR:404").
Proof.
  apply (negative_lookup padded_reverse registered5 (deriveAddr padded_reverse 7)).
  vm_compute. reflexivity.
Defined.

(** C10 on the funded state. *)
Lemma identifier_zero_invisible_witness :
  (exists bucket, apps registered0 !! deriveAddrPrefix padded_reverse 0 = Some bucket /\
                  0 ∈ bucket) /\
  ((forall bucket, apps funded !! deriveAddrPrefix padded_reverse 0 = Some bucket ->
                   0 ∉ bucket) ->
   counter registered0 = counter funded + 1) /\
  exists_ padded_reverse (deriveAddr padded_reverse 0) registered0 = false /\
  mustGet padded_reverse (deriveAddr padded_reverse 0) registered0
    = Err (ErrCode errAppNotRegistered).
Proof.
  apply (identifier_zero_invisible padded_reverse box_min_balance escreg_address
           padded_reverse_collision_free funded alice registered0).
  - exact reachable_funded.
  - vm_compute. reflexivity.
Defined.

(** C6 as stated fails: in the state right after creation the cost is
    100000; settling against a cost of 118900 before, for [alice] who has no
    account, fails with ERR:RCV, which is not the ERR:AMT of [NoAccount]. *)
Lemma refund_without_account_counterexample :
  ~ refund_fails_with_NoAccount box_min_balance.
Proof.
  intros H. specialize (H (initial_state alice) alice 118900).
  assert (manageMbrCredits box_min_balance 118900 alice (initial_state alice)
          = Err ReceiverMismatch) as E by (vm_compute; reflexivity).
  rewrite E in H. discriminate H; vm_compute; reflexivity.
Qed.

(** C6, amended, on the funded state (cost 118900): against a cost of 110000
    before, 8900 are debited from the 81100 of [alice]. *)
Lemma manageMbrCredits_settles_witness :
  manageMbrCredits box_min_balance 110000 alice funded
  = Ok (set_userCredits <[alice := 72200]> funded).
Proof.
  apply (proj2 (proj1 (proj2 (manageMbrCredits_settles box_min_balance funded alice 110000))
                  ltac:(vm_compute; reflexivity))).
  vm_compute. discriminate.
Defined.

(** C7 as stated fails: [alice] deposits 100000 for [bob], who has no
    account.  [bob] is credited 100000 in full, and the 18900 of his box are
    taken from [alice]. *)
Lemma deposit_for_other_counterexample :
  ~ deposit_is_self_funding box_min_balance escreg_address.
Proof.
  intros H.
  specialize (H funded alice bob (mkPayment escreg_address 100000)
                (mkState alice ∅ 0 (<[alice := 62200]> {[bob := 100000]}))).
  assert (userCredits funded !! bob = None) as Hnew by (vm_compute; reflexivity).
  specialize (H Hnew ltac:(vm_compute; reflexivity)).
  vm_compute in H. discriminate H.
Qed.

(** C7, amended, on the same deposit. *)
Lemma depositCredits_settles_witness :
  depositCredits box_min_balance escreg_address bob (mkPayment escreg_address 100000)
    alice funded
  = Ok (set_userCredits
          (fun credits => <[alice := 62200]> (<[bob := 100000]> credits)) funded).
Proof.
  destruct (depositCredits_settles box_min_balance escreg_address funded alice bob
              (mkPayment escreg_address 100000)) as (_ & _ & H).
  destruct (H eq_refl ltac:(vm_compute; reflexivity) ltac:(vm_compute; discriminate))
    as (_ & Hgrow).
  destruct (Hgrow ltac:(vm_compute; reflexivity) ltac:(vm_compute; reflexivity))
    as (_ & Hother).
  destruct (Hother ltac:(vm_compute; discriminate)) as (_ & Hok).
  rewrite Hok; [vm_compute; reflexivity | vm_compute; discriminate].
Defined.

(** Call-equivalents: an application call counts with each of its inner
    transactions, a payment does not count. *)
Example countAppCalls_nested :
  EscregSDK.countAppCalls
    [Some (EscregSDK.mkTxnResult "appl" (Some ["appl"; "appl"]%string));
     Some (EscregSDK.mkTxnResult "pay" None);
     None;
     Some (EscregSDK.mkTxnResult "appl" None)]
  = 4%Z.
Proof. reflexivity. Qed.

(** C8 as stated fails: one application call that consumed 800 leaves a
    shortfall of 100, for which the sentence asks one sub-call; the added
    call itself brings 674, and the negotiator asks for none. *)
Lemma negotiation_counterexample : ~ EscregSDK.negotiation_as_specified.
Proof.
  intros H. specialize (H short_budget [] ltac:(vm_compute; reflexivity)).
  vm_compute in H. discriminate H.
Qed.

(** C8, amended, on the same simulation, for a group of three
    identifiers. *)
Lemma budget_negotiation_witness :
  exists n : Z,
    EscregSDK.buildGroup short_budget [1; 2; 3]
      = EscregSDK.IncreaseBudgetCall n (n * 1000) ((n + 1) * 1000)
          :: [EscregSDK.RegisterListCall [1; 2; 3]] /\
    n = EscregSDK.ceil_div (800 - 700 - (700 - 26)) (700 - 22) /\
    (0 <= n)%Z /\
    (800 <= 700 + (700 - 26) + n * (700 - 22))%Z /\
    (forall m : Z, (0 <= m)%Z -> (800 <= 700 + (700 - 26) + m * (700 - 22))%Z -> (n <= m)%Z).
Proof.
  apply (proj2 (budget_negotiation short_budget [1; 2; 3])).
  vm_compute. reflexivity.
Defined.

(** C9 on three identifiers, none of which is ever confirmed. *)
Lemma register_retry_terminates_witness :
  exists p1 p2,
    EscregSDK.register (fun _ _ => short_budget) never_confirmed some_txIDs
      none_registered in_order 2 [1; 2; 3] true 1 0
    = Some ([p1; p2], EscregSDK.Thrown (EscregSDK.PersistentBatchFailure 2 3)).
Proof.
  apply (proj2 (proj2 (register_retry_terminates (fun _ _ => short_budget) never_confirmed
                         some_txIDs none_registered in_order
                         (fun _ groups => Permutation_refl groups)))
           (fun _ _ _ => eq_refl) 0%nat [1; 2; 3] true 1%nat).
  discriminate.
Defined.

(** ** The reads of the registry, one against the other *)

Section Reads.

Variable sha512_256 : bytes -> bytes.
Variable authAddress : bytes -> bytes.

Abbreviation deriveAddr := (deriveAddr sha512_256).
Abbreviation deriveAddrPrefix := (deriveAddrPrefix sha512_256).
Abbreviation findAddr := (findAddr sha512_256).
Abbreviation get := (get sha512_256).
Abbreviation exists_ := (exists_ sha512_256).
Abbreviation mustGet := (mustGet sha512_256).
Abbreviation getList := (getList sha512_256).
Abbreviation mustGetList := (mustGetList sha512_256).
Abbreviation getWithAuth := (getWithAuth sha512_256 authAddress).
Abbreviation getWithAuthList := (getWithAuthList sha512_256 authAddress).
Abbreviation registered := (registered sha512_256).

(** A match other than 0 is a candidate, and its address is the one asked
    for. *)
Lemma findAddr_nonzero address candidates :
  findAddr address candidates <> 0 ->
  findAddr address candidates ∈ candidates /\
  deriveAddr (findAddr address candidates) = address.
Proof.
  induction candidates as [|c rest IH]; simpl; [congruence|].
  case_bool_decide as E.
  - intros _. split; [constructor | now symmetry].
  - intros Hv. destruct (IH Hv) as [Hin Haddr]. split; [now constructor | exact Haddr].
Qed.

Lemma get_nonzero_registered s address v :
  get address s = v -> v <> 0 ->
  deriveAddr v = address /\ registered s v.
Proof.
  unfold Escreg.get. intros Hget Hv.
  destruct (apps s !! take 4 address) as [bucket|] eqn:Hk; [|congruence].
  subst v. destruct (findAddr_nonzero _ _ Hv) as [Hin Haddr].
  split; [exact Haddr|]. exists bucket. split; [|exact Hin].
  unfold Escreg.deriveAddrPrefix. fold (deriveAddr (findAddr address bucket)).
  now rewrite Haddr.
Qed.

(** X1.  Whatever the state, an identifier other than 0 that [get] returns
    for an address is registered, and the address is the one derived from
    it: [get] never answers with an identifier that does not own the
    address. *)
Theorem get_sound s address v :
  get address s = v -> v <> 0 ->
  deriveAddr v = address /\ registered s v.
Proof. apply get_nonzero_registered. Qed.

(** X2.  Whatever the state, the three single reads agree: [exists] is true
    exactly when [get] is not 0, and [mustGet] returns what [get] returns
    when that is not 0 and fails with ERR:404 when it is. *)
Theorem reads_agree s address :
  exists_ address s = negb (get address s =? 0) /\
  mustGet address s =
    if get address s =? 0 then Err (ErrCode "ERR:404") else Ok (get address s).
Proof.
  unfold Escreg.exists_, Escreg.get, Escreg.mustGet.
  destruct (apps s !! take 4 address) as [bucket|]; simpl; [|split; reflexivity].
  split; [reflexivity|]. now destruct (findAddr address bucket =? 0).
Qed.

Lemma getListLoop_spec addresses : forall found s,
  getListLoop sha512_256 addresses found s
  = found ++ ((fun address => get address s) <$> addresses).
Proof.
  induction addresses as [|a rest IH]; intros found s; simpl.
  - now rewrite app_nil_r.
  - destruct (apps s !! take 4 a) eqn:E; rewrite IH, <- app_assoc;
      f_equal; simpl; f_equal; unfold Escreg.get; now rewrite E.
Qed.

(** X3.  [getList] answers each address as [get] does, in the order of the
    addresses: an address that does not resolve gives 0 at its position
    and does not disturb the others. *)
Theorem getList_pointwise s addresses :
  getList addresses s = (fun address => get address s) <$> addresses.
Proof. unfold Escreg.getList. now rewrite getListLoop_spec. Qed.

Lemma mustGetListLoop_spec addresses : forall found s,
  mustGetListLoop sha512_256 addresses found s
  = if forallb (fun address => negb (get address s =? 0)) addresses
    then Ok (found ++ ((fun address => get address s) <$> addresses))
    else Err (ErrCode "ERR:404").
Proof.
  induction addresses as [|a rest IH]; intros found s; simpl.
  - now rewrite app_nil_r.
  - assert (get a s = match apps s !! take 4 a with
                        | Some bucket => findAddr a bucket
                        | None => 0
                        end) as Hget by reflexivity.
    rewrite Hget. clear Hget.
    destruct (apps s !! take 4 a) as [bucket|] eqn:E; simpl; [|reflexivity].
    destruct (findAddr a bucket =? 0); simpl; [reflexivity|].
    rewrite IH. destruct (forallb _ rest); [|reflexivity].
    rewrite <- app_assoc. reflexivity.
Qed.

(** X4.  [mustGetList] returns the answers of [getList] when none of them
    is 0, and fails with ERR:404 as soon as one address does not resolve to
    an identifier other than 0. *)
Theorem mustGetList_all_or_nothing s addresses :
  mustGetList addresses s =
    if forallb (fun address => negb (get address s =? 0)) addresses
    then Ok (getList addresses s)
    else Err (ErrCode "ERR:404").
Proof.
  unfold Escreg.mustGetList, Escreg.getList.
  rewrite mustGetListLoop_spec, getListLoop_spec. reflexivity.
Qed.

Lemma getWithAuth_spec s address :
  getWithAuth address s
  = mkAddressWithAuth (get address s) (get (authAddress address) s).
Proof. reflexivity. Qed.

Lemma getWithAuthListLoop_spec addresses : forall results s,
  getWithAuthListLoop sha512_256 authAddress addresses results s
  = results ++ ((fun address => getWithAuth address s) <$> addresses).
Proof.
  induction addresses as [|a rest IH]; intros results s; simpl.
  - now rewrite app_nil_r.
  - rewrite IH, <- app_assoc. reflexivity.
Qed.


End Reads.

(** ** The registry: the shape of the buckets and what a write disturbs *)

Section Buckets.

Variable sha512_256 : bytes -> bytes.
Variable minBalance : gmap bytes (list N) -> gmap bytes N -> N.
Variable currentApplicationAddress : bytes.

Abbreviation deriveAddr := (deriveAddr sha512_256).
Abbreviation deriveAddrPrefix := (deriveAddrPrefix sha512_256).
Abbreviation findAddr := (findAddr sha512_256).
Abbreviation registerStep := (registerStep sha512_256).
Abbreviation registerLoop := (registerLoop sha512_256).
Abbreviation register := (register sha512_256 minBalance).
Abbreviation registerList := (registerList sha512_256 minBalance).
Abbreviation get := (get sha512_256).
Abbreviation registered := (registered sha512_256).
Abbreviation buckets_ok := (buckets_ok sha512_256).
Abbreviation reachable := (reachable sha512_256 minBalance currentApplicationAddress).

Lemma buckets_ok_same_apps s s' : apps s' = apps s -> buckets_ok s -> buckets_ok s'.
Proof. intros E [H1 H2 H3]. split; rewrite E; assumption. Qed.

Lemma registerStep_buckets_ok s i s' :
  buckets_ok s -> registerStep s i = Ok s' -> buckets_ok s'.
Proof.
  intros [Hne Hnd Hown] H.
  pose proof (registerStep_inv sha512_256 _ _ _ H) as Hinv. simpl in Hinv.
  destruct Hinv as [[_ ->] | (Hfresh & _ & ->)]; [now split|].
  set (key := deriveAddrPrefix i) in *.
  assert (NoDup (default [] (apps s !! key)) /\
          forall j, j ∈ default [] (apps s !! key) -> deriveAddrPrefix j = key) as [Hnd0 Hown0].
  { destruct (apps s !! key) as [old|] eqn:E; simpl.
    - split; [eauto|]. intros j Hj. eauto.
    - split; [constructor|]. intros j Hj. inversion Hj. }
  split; simpl.
  - intros k b. destruct (decide (key = k)) as [<-|Hk].
    + rewrite lookup_insert_eq. intros [= <-]. now destruct (default [] (apps s !! key)).
    + rewrite lookup_insert_ne by exact Hk. apply Hne.
  - intros k b. destruct (decide (key = k)) as [<-|Hk].
    + rewrite lookup_insert_eq. intros [= <-]. apply NoDup_app.
      split; [exact Hnd0|]. split; [|apply NoDup_singleton].
      intros x Hx Hxi. apply list_elem_of_singleton in Hxi. now subst x.
    + rewrite lookup_insert_ne by exact Hk. apply Hnd.
  - intros k b j. destruct (decide (key = k)) as [<-|Hk].
    + rewrite lookup_insert_eq. intros [= <-] Hj.
      apply elem_of_app in Hj as [Hj|Hj]; [now apply Hown0|].
      apply list_elem_of_singleton in Hj. now subst j.
    + rewrite lookup_insert_ne by exact Hk. apply Hown.
Qed.

Lemma registerLoop_buckets_ok appIds : forall s s',
  buckets_ok s -> registerLoop appIds s = Ok s' -> buckets_ok s'.
Proof.
  induction appIds as [|a rest IH]; simpl; intros s s' Hok H.
  - now injection H as <-.
  - bind_inv H. eapply IH; [|exact H]. eapply registerStep_buckets_ok; eassumption.
Qed.

Lemma deleteLoop_buckets_ok boxKeys : forall s s',
  buckets_ok s -> deleteLoop boxKeys s = Ok s' -> buckets_ok s'.
Proof.
  induction boxKeys as [|key rest IH]; simpl; intros s s' Hok H.
  - now injection H as <-.
  - destruct (apps s !! key) as [bucket|] eqn:E; [|eauto].
    bind_inv H. eapply IH; [|exact H]. destruct Hok as [H1 H2 H3].
    split; simpl.
    + intros k b Hk. apply lookup_delete_Some in Hk as [_ Hk]. eauto.
    + intros k b Hk. apply lookup_delete_Some in Hk as [_ Hk]. eauto.
    + intros k b j Hk. apply lookup_delete_Some in Hk as [_ Hk]. eauto.
Qed.

Lemma exec_buckets_ok c sender s s' :
  buckets_ok s ->
  exec sha512_256 minBalance currentApplicationAddress c sender s = Ok s' ->
  buckets_ok s'.
Proof.
  intros Hok H. destruct c as [appId|appIds|boxKeys|creditor txn|]; simpl in *.
  - unfold Escreg.register in H. bind_inv H.
    apply manageMbrCredits_index in H as (_ & Hap & _).
    eapply buckets_ok_same_apps; [exact Hap|].
    eapply registerStep_buckets_ok; eassumption.
  - unfold Escreg.registerList in H. bind_inv H.
    apply manageMbrCredits_index in H as (_ & Hap & _).
    eapply buckets_ok_same_apps; [exact Hap|].
    eapply registerLoop_buckets_ok; eassumption.
  - unfold deleteBoxes in H. bind_inv H. eapply deleteLoop_buckets_ok; eassumption.
  - unfold depositCredits in H. bind_inv H. bind_inv H. bind_inv H.
    apply manageMbrCredits_index in H as (_ & Hap & _).
    eapply buckets_ok_same_apps; [exact Hap|].
    eapply buckets_ok_same_apps; [|exact Hok]. reflexivity.
  - bind_inv H. injection H as <-. unfold withdrawCredits in Ha.
    bind_inv Ha. bind_inv Ha. bind_inv Ha. bind_inv Ha. injection Ha as <-.
    eapply buckets_ok_same_apps; [|exact Hok]. reflexivity.
Qed.

(** X6.  In every reachable state no bucket is empty, no bucket holds an
    identifier twice, and every identifier of a bucket has the bucket's key
    as the first four bytes of its address, so that an identifier is in at
    most one bucket. *)
Theorem reachable_buckets_ok s :
  reachable s ->
  buckets_ok s /\
  (forall key1 key2 bucket1 bucket2 i,
     apps s !! key1 = Some bucket1 -> apps s !! key2 = Some bucket2 ->
     i ∈ bucket1 -> i ∈ bucket2 -> key1 = key2).
Proof.
  intros Hr. assert (buckets_ok s) as Hok.
  { induction Hr as [creator | s s' c sender _ IH _ Hexec].
    - split; intros key bucket; simpl; rewrite lookup_empty; discriminate.
    - eapply exec_buckets_ok; eassumption. }
  split; [exact Hok|]. intros key1 key2 b1 b2 i H1 H2 Hi1 Hi2.
  destruct Hok as [_ _ Hown].
  rewrite <- (Hown _ _ _ H1 Hi1). exact (Hown _ _ _ H2 Hi2).
Qed.

(** Appending a candidate whose address is another one changes no
    match. *)
Lemma findAddr_app_other address candidates i :
  address <> deriveAddr i ->
  findAddr address (candidates ++ [i]) = findAddr address candidates.
Proof.
  intros Hne. induction candidates as [|c rest IH]; simpl.
  - now rewrite bool_decide_eq_false_2.
  - now rewrite IH.
Qed.

Lemma registerStep_frame s i s' address :
  address <> deriveAddr i ->
  registerStep s i = Ok s' ->
  get address s' = get address s.
Proof.
  intros Hne H.
  pose proof (registerStep_inv sha512_256 _ _ _ H) as Hinv. simpl in Hinv.
  destruct Hinv as [[_ ->] | (_ & _ & ->)]; [reflexivity|].
  unfold Escreg.get. simpl.
  destruct (decide (deriveAddrPrefix i = take 4 address)) as [E|E].
  - rewrite E, lookup_insert_eq, findAddr_app_other by exact Hne.
    now destruct (apps s !! take 4 address).
  - now rewrite lookup_insert_ne by exact E.
Qed.

Lemma get_same_apps s s' address : apps s' = apps s -> get address s' = get address s.
Proof. intros E. unfold Escreg.get. now rewrite E. Qed.

Lemma registerLoop_frame appIds : forall s s' address,
  (forall i, i ∈ appIds -> address <> deriveAddr i) ->
  registerLoop appIds s = Ok s' ->
  get address s' = get address s.
Proof.
  induction appIds as [|a rest IH]; simpl; intros s s' address Hne H.
  - now injection H as <-.
  - bind_inv H. rewrite (IH _ _ address (fun i Hi => Hne i (list_elem_of_further _ _ _ Hi)) H).
    eapply registerStep_frame; [|exact Ha]. apply Hne. constructor.
Qed.

(** X7.  Whatever the state, a registration changes the answer of [get]
    for no address other than those derived from the identifiers it was
    given; this holds for [register] and for [registerList]. *)
Theorem register_frame s sender s' address :
  (forall appId,
     address <> deriveAddr appId ->
     register appId sender s = Ok s' -> get address s' = get address s) /\
  (forall appIds,
     (forall i, i ∈ appIds -> address <> deriveAddr i) ->
     registerList appIds sender s = Ok s' -> get address s' = get address s).
Proof.
  split.
  - intros appId Hne H. unfold Escreg.register in H. bind_inv H.
    apply manageMbrCredits_index in H as (_ & Hap & _).
    rewrite (get_same_apps _ _ _ Hap). eapply registerStep_frame; eassumption.
  - intros appIds Hne H. unfold Escreg.registerList in H. bind_inv H.
    apply manageMbrCredits_index in H as (_ & Hap & _).
    rewrite (get_same_apps _ _ _ Hap). eapply registerLoop_frame; eassumption.
Qed.

End Buckets.

(** ** The registry: batches *)

Section Batches.

Variable sha512_256 : bytes -> bytes.
Variable minBalance : gmap bytes (list N) -> gmap bytes N -> N.
Variable currentApplicationAddress : bytes.

Abbreviation deriveAddr := (deriveAddr sha512_256).
Abbreviation deriveAddrPrefix := (deriveAddrPrefix sha512_256).
Abbreviation registerStep := (registerStep sha512_256).
Abbreviation registerLoop := (registerLoop sha512_256).
Abbreviation register := (register sha512_256 minBalance).
Abbreviation registerList := (registerList sha512_256 minBalance).
Abbreviation registerEach := (registerEach sha512_256 minBalance).
Abbreviation manageMbrCredits := (manageMbrCredits minBalance).
Abbreviation mbr := (currentMinBalance minBalance).
Abbreviation get := (get sha512_256).
Abbreviation getList := (getList sha512_256).
Abbreviation registered := (registered sha512_256).
Abbreviation reachable := (reachable sha512_256 minBalance currentApplicationAddress).

Lemma registerStep_registered s i : registered s i -> registerStep s i = Ok s.
Proof.
  intros (bucket & Hk & Hin). unfold Escreg.registerStep. rewrite Hk.
  unfold appendAppId. rewrite Hk. simpl.
  apply scanExisting_spec in Hin. now rewrite Hin.
Qed.

Lemma registerStep_keeps_registered s i s' j :
  registerStep s i = Ok s' -> registered s j -> registered s' j.
Proof.
  intros H (bucket & Hk & Hin).
  destruct (registerStep_keeps sha512_256 _ _ _ _ _ _ H Hk Hin) as (b' & Hk' & Hin').
  exists b'. split; assumption.
Qed.

Lemma registerLoop_registered appIds : forall s s',
  registerLoop appIds s = Ok s' ->
  (forall j, registered s j -> registered s' j) /\
  (forall i, i ∈ appIds -> registered s' i).
Proof.
  induction appIds as [|a rest IH]; simpl; intros s s' H.
  - injection H as <-. split; [auto|]. intros i Hi. inversion Hi.
  - bind_inv H. destruct (IH _ _ H) as [Hkeep Hall]. split.
    + intros j Hj. apply Hkeep. eapply registerStep_keeps_registered; eassumption.
    + intros i Hi. apply elem_of_cons in Hi as [->|Hi]; [|now apply Hall].
      apply Hkeep. apply (registerStep_member sha512_256 _ _ _ Ha).
Qed.

Lemma registerLoop_noop appIds : forall s,
  (forall i, i ∈ appIds -> registered s i) -> registerLoop appIds s = Ok s.
Proof.
  induction appIds as [|a rest IH]; simpl; intros s Hall; [reflexivity|].
  rewrite registerStep_registered by (apply Hall; constructor). simpl.
  apply IH. intros i Hi. apply Hall. now constructor.
Qed.

Lemma registerList_inv appIds sender s s' :
  registerList appIds sender s = Ok s' ->
  exists s1, registerLoop appIds s = Ok s1 /\
             admin s' = admin s1 /\ apps s' = apps s1 /\ counter s' = counter s1.
Proof.
  unfold Escreg.registerList. intros H. bind_inv H.
  apply manageMbrCredits_index in H. eauto.
Qed.

Lemma registered_same_apps s s' i : apps s' = apps s -> registered s i -> registered s' i.
Proof. intros E (b & Hk & Hin). exists b. now rewrite E. Qed.

(** X8.  A second [registerList] of the same identifiers, by any sender,
    right after a first one goes through without error and changes
    nothing: no bucket, not the counter, and no credit. *)
Theorem registerList_idempotent s appIds sender1 sender2 s1 :
  registerList appIds sender1 s = Ok s1 ->
  registerList appIds sender2 s1 = Ok s1.
Proof.
  intros H. apply registerList_inv in H as (t & Hloop & _ & Hap & _).
  apply registerLoop_registered in Hloop as [_ Hall].
  unfold Escreg.registerList. rewrite registerLoop_noop.
  - simpl. unfold Escreg.manageMbrCredits. now rewrite N.eqb_refl.
  - intros i Hi. eapply registered_same_apps; [exact Hap|]. now apply Hall.
Qed.

(** A registration step reads and writes the index only. *)
Lemma registerStep_on_index s i s' t :
  registerStep s i = Ok s' ->
  apps t = apps s -> counter t = counter s ->
  registerStep t i = Ok (mkState (admin t) (apps s') (counter s') (userCredits t)).
Proof.
  intros H Hap Hcn.
  pose proof (registerStep_inv sha512_256 _ _ _ H) as Hinv. simpl in Hinv.
  unfold Escreg.registerStep, appendAppId. rewrite Hap.
  destruct (apps s !! deriveAddrPrefix i) as [old|] eqn:E; simpl in *.
  - destruct Hinv as [[Hin ->] | (Hfresh & Hc & ->)].
    + apply scanExisting_spec in Hin. rewrite Hin. rewrite <- Hap, <- Hcn. now destruct t.
    + apply scanExisting_false in Hfresh. rewrite Hfresh. simpl.
      unfold uint64_add. rewrite Hcn.
      destruct (N.leb_spec (counter s + 1) uint64_max) as [_|Hgt];
        [|unfold is_uint64 in Hc; lia].
      simpl. unfold set_counter, set_apps. simpl. now rewrite Hap.
  - destruct Hinv as [[Hin _] | (_ & Hc & ->)]; [inversion Hin|].
    unfold uint64_add. rewrite Hcn.
    destruct (N.leb_spec (counter s + 1) uint64_max) as [_|Hgt];
      [|unfold is_uint64 in Hc; lia].
    simpl. unfold set_counter, set_apps. simpl. now rewrite Hap.
Qed.

Lemma registerLoop_vs_each appIds : forall sender s s1 t t1,
  apps t = apps s -> counter t = counter s ->
  registerLoop appIds s = Ok s1 ->
  registerEach appIds sender t = Ok t1 ->
  apps t1 = apps s1 /\ counter t1 = counter s1.
Proof.
  induction appIds as [|a rest IH]; simpl; intros sender s s1 t t1 Hap Hcn Hl He.
  - injection Hl as <-. injection He as <-. now split.
  - bind_inv Hl. bind_inv He.
    apply register_inv in Ha0 as (u & Hstep & _ & Hap' & Hcn').
    rewrite (registerStep_on_index _ _ _ t Ha Hap Hcn) in Hstep.
    injection Hstep as <-. simpl in *.
    eapply (IH sender _ _ _ _ Hap' Hcn' Hl He).
Qed.

(** X9.  [register] of one identifier is [registerList] of the list of that
    identifier; and whenever a batch goes through as one [registerList] and
    also as one [register] per identifier, the two ways end with the same
    buckets and the same counter. *)
Theorem registerList_as_registers s sender :
  (forall appId, register appId sender s = registerList [appId] sender s) /\
  (forall appIds sender' s1 s2,
     registerList appIds sender s = Ok s1 ->
     registerEach appIds sender' s = Ok s2 ->
     apps s2 = apps s1 /\ counter s2 = counter s1).
Proof.
  split.
  - intros appId. unfold Escreg.register, Escreg.registerList. simpl.
    now destruct (registerStep s appId).
  - intros appIds sender' s1 s2 Hl He.
    apply registerList_inv in Hl as (t & Hloop & _ & Hap & Hcn).
    rewrite Hap, Hcn.
    exact (registerLoop_vs_each appIds sender' s t s s2 eq_refl eq_refl Hloop He).
Qed.

Lemma registerStep_credits s i s' :
  registerStep s i = Ok s' -> userCredits s' = userCredits s.
Proof.
  intros H. pose proof (registerStep_inv sha512_256 _ _ _ H) as Hinv. simpl in Hinv.
  destruct Hinv as [[_ ->] | (_ & _ & ->)]; reflexivity.
Qed.

Lemma registerLoop_credits appIds : forall s s',
  registerLoop appIds s = Ok s' -> userCredits s' = userCredits s.
Proof.
  induction appIds as [|a rest IH]; simpl; intros s s' H.
  - now injection H as <-.
  - bind_inv H. rewrite (IH _ _ H). eapply registerStep_credits. exact Ha.
Qed.

(** The settlement of a call whose writes led from [s] to [s1] without
    touching the credits. *)
Lemma settle_after_writes s s1 sender s' :
  userCredits s1 = userCredits s ->
  manageMbrCredits (mbr s) sender s1 = Ok s' ->
  (forall a, a <> sender -> userCredits s' !! a = userCredits s !! a) /\
  (mbr s <= mbr s1 ->
     mbr s1 - mbr s <= balance s sender /\
     balance s' sender = balance s sender - (mbr s1 - mbr s)).
Proof.
  intros Hcr H.
  assert (balance s1 sender = balance s sender) as Hb by (unfold balance; now rewrite Hcr).
  destruct (N.lt_trichotomy (mbr s) (mbr s1)) as [Hlt|[Heq|Hgt]].
  - rewrite (manageMbrCredits_growth minBalance _ _ _ Hlt), Hb in H.
    destruct (N.leb_spec (mbr s1 - mbr s) (balance s sender)) as [Hle|]; [|discriminate].
    injection H as <-. simpl. split.
    + intros a Ha. rewrite lookup_insert_ne by congruence. now rewrite Hcr.
    + intros _. split; [exact Hle|]. unfold balance at 1. simpl.
      now rewrite lookup_insert_eq.
  - rewrite (manageMbrCredits_unchanged minBalance s1 sender (mbr s) (eq_sym Heq)) in H.
    injection H as <-. split.
    + intros a _. now rewrite Hcr.
    + intros _. rewrite <- Heq, N.sub_diag, N.sub_0_r. split; [lia | exact Hb].
  - rewrite (manageMbrCredits_shrink minBalance _ _ _ Hgt) in H. split; [|lia].
    intros a Ha. destruct (userCredits s1 !! sender); [|discriminate].
    destruct (_ <=? _); [|discriminate]. injection H as <-. simpl.
    rewrite lookup_insert_ne by congruence. now rewrite Hcr.
Qed.

(** X10.  A registration that goes through leaves the credit of every
    account other than the sender as it was, and, the storage cost not
    having gone down, takes from the sender exactly the growth of the
    storage cost, which the sender's balance covered; this holds for
    [register] and for [registerList]. *)
Theorem registration_charges_sender s sender s' :
  (forall appId, register appId sender s = Ok s' ->
     let growth := minBalance (apps s') (userCredits s) - mbr s in
     (forall a, a <> sender -> userCredits s' !! a = userCredits s !! a) /\
     (mbr s <= minBalance (apps s') (userCredits s) ->
        growth <= balance s sender /\ balance s' sender = balance s sender - growth)) /\
  (forall appIds, registerList appIds sender s = Ok s' ->
     let growth := minBalance (apps s') (userCredits s) - mbr s in
     (forall a, a <> sender -> userCredits s' !! a = userCredits s !! a) /\
     (mbr s <= minBalance (apps s') (userCredits s) ->
        growth <= balance s sender /\ balance s' sender = balance s sender - growth)).
Proof.
  split.
  - intros appId H growth. unfold Escreg.register in H. bind_inv H.
    pose proof (registerStep_credits _ _ _ Ha) as Hcr.
    pose proof (manageMbrCredits_index minBalance _ _ _ _ H) as (_ & Hap & _).
    assert (minBalance (apps s') (userCredits s) = mbr a) as E
      by (unfold currentMinBalance; now rewrite Hap, Hcr).
    unfold growth. rewrite E. exact (settle_after_writes s a sender s' Hcr H).
  - intros appIds H growth. unfold Escreg.registerList in H. bind_inv H.
    pose proof (registerLoop_credits _ _ _ Ha) as Hcr.
    pose proof (manageMbrCredits_index minBalance _ _ _ _ H) as (_ & Hap & _).
    assert (minBalance (apps s') (userCredits s) = mbr a) as E
      by (unfold currentMinBalance; now rewrite Hap, Hcr).
    unfold growth. rewrite E. exact (settle_after_writes s a sender s' Hcr H).
Qed.

(** X11.  Who pays does not matter for the index.  If [registerList] goes
    through for one sender and raises the storage cost by [g], then for any
    other sender it fails with ERR:CRD when that sender's balance is below
    [g], and otherwise goes through with the same buckets and counter. *)
Theorem registerList_needs_credit s appIds sender s' sender2 :
  registerList appIds sender s = Ok s' ->
  mbr s < minBalance (apps s') (userCredits s) ->
  let g := minBalance (apps s') (userCredits s) - mbr s in
  (balance s sender2 < g ->
     registerList appIds sender2 s = Err (ErrCode "ERR:CRD")) /\
  (g <= balance s sender2 ->
     exists s2, registerList appIds sender2 s = Ok s2 /\
                apps s2 = apps s' /\ counter s2 = counter s').
Proof.
  intros H Hlt g. unfold Escreg.registerList in H. bind_inv H.
  pose proof (registerLoop_credits _ _ _ Ha) as Hcr.
  pose proof (manageMbrCredits_index minBalance _ _ _ _ H) as (_ & Hap & Hcn).
  assert (minBalance (apps s') (userCredits s) = mbr a) as E
    by (unfold currentMinBalance; now rewrite Hap, Hcr).
  unfold g. rewrite E in *.
  assert (balance a sender2 = balance s sender2) as Hb by (unfold balance; now rewrite Hcr).
  unfold Escreg.registerList. rewrite Ha. simpl.
  rewrite (manageMbrCredits_growth minBalance _ _ _ Hlt), Hb. split; intros Hcmp.
  - destruct (N.leb_spec (mbr a - mbr s) (balance s sender2)); [lia | reflexivity].
  - destruct (N.leb_spec (mbr a - mbr s) (balance s sender2)); [|lia].
    eexists. split; [reflexivity|]. simpl. now rewrite Hap, Hcn.
Qed.

End Batches.

(** ** The registry: what resolves *)

Section Resolution.

Variable sha512_256 : bytes -> bytes.
Variable minBalance : gmap bytes (list N) -> gmap bytes N -> N.
Variable currentApplicationAddress : bytes.

Hypothesis sha512_256_collision_free :
  forall x y : bytes,
    length x = 13%nat -> length y = 13%nat ->
    sha512_256 x = sha512_256 y -> x = y.

Abbreviation deriveAddr := (deriveAddr sha512_256).
Abbreviation registerList := (registerList sha512_256 minBalance).
Abbreviation get := (get sha512_256).
Abbreviation getList := (getList sha512_256).
Abbreviation mustGetList := (mustGetList sha512_256).
Abbreviation registered := (registered sha512_256).
Abbreviation reachable := (reachable sha512_256 minBalance currentApplicationAddress).

Lemma get_of_registered s i :
  index_ok s -> registered s i -> get (deriveAddr i) s = i.
Proof.
  intros Hok (bucket & Hk & Hin).
  apply (get_member sha512_256 sha512_256_collision_free s i bucket); try assumption.
  destruct Hok as [_ Hids]. specialize (Hids _ _ Hk).
  rewrite Forall_forall in Hids. now apply Hids.
Qed.

(** X12.  In every reachable state [get] answers an address with an
    identifier other than 0 exactly when that identifier is registered and
    the address is derived from it. *)
Theorem get_resolves s address v :
  reachable s -> v <> 0 ->
  (get address s = v <-> registered s v /\ deriveAddr v = address).
Proof.
  intros Hr Hv. split.
  - intros Hget. destruct (get_nonzero_registered sha512_256 s address v Hget Hv).
    now split.
  - intros [Hreg <-]. apply get_of_registered; [|exact Hreg].
    now apply (reachable_index_ok sha512_256 minBalance currentApplicationAddress).
Qed.

(** X13.  In every reachable state, after a [registerList] that went
    through, [getList] of the addresses derived from the identifiers of the
    batch returns these identifiers, each at its position, also for an
    identifier that is in the batch twice or was registered before; and
    [mustGetList] returns them too unless 0 is among them. *)
Theorem registerList_then_getList s appIds sender s' :
  reachable s -> Forall is_uint64 appIds ->
  registerList appIds sender s = Ok s' ->
  getList (deriveAddr <$> appIds) s' = appIds /\
  (0 ∉ appIds -> mustGetList (deriveAddr <$> appIds) s' = Ok appIds).
Proof.
  intros Hr Hids H.
  assert (index_ok s') as Hok'.
  { apply (exec_index_ok sha512_256 minBalance currentApplicationAddress
             (CallRegisterList appIds) sender s s'); [exact Hids | | exact H].
    now apply (reachable_index_ok sha512_256 minBalance currentApplicationAddress). }
  apply registerList_inv in H as (t & Hloop & _ & Hap & _).
  apply registerLoop_registered in Hloop as [_ Hall].
  assert ((fun address => get address s') <$> (deriveAddr <$> appIds) = appIds) as Hmap.
  { rewrite <- list_fmap_compose. rewrite <- (list_fmap_id appIds) at 2.
    apply list_fmap_ext. intros k i Hi. simpl.
    apply get_of_registered; [exact Hok'|].
    eapply registered_same_apps; [exact Hap|]. apply Hall.
    eapply list_elem_of_lookup_2. exact Hi. }
  split.
  - unfold Escreg.getList. rewrite getListLoop_spec. exact Hmap.
  - intros H0. unfold Escreg.mustGetList. rewrite mustGetListLoop_spec.
    rewrite Hmap. simpl.
    replace (forallb _ _) with true; [reflexivity|].
    symmetry. apply forallb_forall. intros a Ha.
    apply in_map_iff in Ha as (i & <- & Hi). apply list_elem_of_In in Hi.
    rewrite get_of_registered; [| exact Hok' |].
    + apply negb_true_iff, N.eqb_neq. intros ->. contradiction.
    + eapply registered_same_apps; [exact Hap|]. now apply Hall.
Qed.

End Resolution.

(** ** The registry: administration *)

Section Administration.

Variable sha512_256 : bytes -> bytes.
Variable minBalance : gmap bytes (list N) -> gmap bytes N -> N.
Variable currentApplicationAddress : bytes.

Abbreviation get := (get sha512_256).
Abbreviation reachable := (reachable sha512_256 minBalance currentApplicationAddress).

Lemma ensure_true c msg u : ensure c msg = Ok u -> c = true.
Proof. destruct c; [reflexivity | discriminate]. Qed.

(** Deleting never runs out of counter while the counter is the total. *)
Lemma deleteLoop_total boxKeys : forall s,
  counter s = bucket_total (apps s) ->
  exists s', deleteLoop boxKeys s = Ok s' /\
    (forall key, apps s' !! key = if decide (key ∈ boxKeys) then None else apps s !! key) /\
    counter s' = bucket_total (apps s') /\
    userCredits s' = userCredits s /\ admin s' = admin s.
Proof.
  induction boxKeys as [|k rest IH]; cbn [deleteLoop]; intros s Hc.
  - exists s. split; [reflexivity|]. split; [|auto].
    intros key. case_decide as Hin; [inversion Hin | reflexivity].
  - destruct (apps s !! k) as [bucket|] eqn:E.
    + unfold uint64_sub.
      pose proof (bucket_total_delete _ _ _ E) as Ht.
      destruct (N.leb_spec (N.of_nat (length bucket)) (counter s)) as [_|Hgt]; [|lia].
      cbn [bind].
      destruct (IH (set_apps (delete k)
                      (set_counter (counter s - N.of_nat (length bucket)) s)))
        as (s' & Hrun & Hlook & Hc' & Hcr & Had); [simpl; lia|].
      exists s'. split; [exact Hrun|]. split; [|auto].
      intros key. rewrite Hlook. cbn [apps set_apps set_counter].
      destruct (decide (key = k)) as [->|Hne];
        [rewrite lookup_delete_eq | rewrite lookup_delete_ne by congruence];
        repeat case_decide; try reflexivity;
        exfalso; rewrite elem_of_cons in *; tauto.
    + destruct (IH s Hc) as (s' & Hrun & Hlook & Hc' & Hcr & Had).
      exists s'. split; [exact Hrun|]. split; [|auto].
      intros key. rewrite Hlook.
      destruct (decide (key = k)) as [->|Hne];
        repeat case_decide; try reflexivity; try (now rewrite E);
        exfalso; rewrite elem_of_cons in *; tauto.
Qed.

(** X14.  In every reachable state [deleteBoxes] called by the admin goes
    through, whatever the keys, also absent or repeated ones: afterwards no
    listed key has a bucket and every address under a listed key reads 0,
    the other buckets are as before, the counter is again the total of the
    bucket lengths, and no credit has changed. *)
Theorem deleteBoxes_by_admin s boxKeys :
  reachable s ->
  exists s',
    deleteBoxes boxKeys (admin s) s = Ok s' /\
    (forall key, apps s' !! key = if decide (key ∈ boxKeys) then None else apps s !! key) /\
    (forall address, take 4 address ∈ boxKeys -> get address s' = 0) /\
    counter s' = bucket_total (apps s') /\
    userCredits s' = userCredits s.
Proof.
  intros Hr.
  apply (reachable_index_ok sha512_256 minBalance currentApplicationAddress) in Hr.
  destruct Hr as [Hc _].
  destruct (deleteLoop_total boxKeys s Hc) as (s' & Hrun & Hlook & Hc' & Hcr & _).
  exists s'. unfold deleteBoxes, adminOnly.
  rewrite bool_decide_eq_true_2 by reflexivity. simpl.
  split; [exact Hrun|]. split; [exact Hlook|]. split; [|auto].
  intros address Hin. unfold Escreg.get. rewrite Hlook.
  now rewrite decide_True by exact Hin.
Qed.

Lemma deleteLoop_admin boxKeys : forall s s',
  deleteLoop boxKeys s = Ok s' -> admin s' = admin s.
Proof.
  induction boxKeys as [|k rest IH]; simpl; intros s s' H.
  - now injection H as <-.
  - destruct (apps s !! k); [|eauto]. bind_inv H. now rewrite (IH _ _ H).
Qed.

(** X15.  The administrative methods are for the admin only, and nobody
    becomes admin: for a sender other than the admin, [deleteBoxes],
    [withdraw], [deleteApplication] and [updateApplication] fail with
    ERR:AUTH; for the admin, [withdraw] pays the amount to the admin; and no
    call that goes through changes who the admin is. *)
Theorem admin_only s sender :
  (sender <> admin s ->
     (forall boxKeys, deleteBoxes boxKeys sender s = Err (ErrCode "ERR:AUTH")) /\
     (forall amount, withdraw amount sender s = Err (ErrCode "ERR:AUTH")) /\
     deleteApplication sender s = Err (ErrCode "ERR:AUTH") /\
     updateApplication sender s = Err (ErrCode "ERR:AUTH")) /\
  (sender = admin s ->
     forall amount, withdraw amount sender s = Ok (mkInnerPayment (admin s) amount)) /\
  (forall c s',
     exec sha512_256 minBalance currentApplicationAddress c sender s = Ok s' ->
     admin s' = admin s).
Proof.
  split; [|split].
  - intros Hne. unfold deleteBoxes, withdraw, deleteApplication, updateApplication, adminOnly.
    rewrite bool_decide_eq_false_2 by exact Hne. repeat split.
  - intros -> amount. unfold withdraw, adminOnly.
    now rewrite bool_decide_eq_true_2 by reflexivity.
  - intros c s' H. destruct c as [appId|appIds|boxKeys|creditor txn|]; simpl in H.
    + apply register_inv in H as (t & Hstep & Had & _).
      rewrite Had. pose proof (registerStep_inv sha512_256 _ _ _ Hstep) as Hinv.
      simpl in Hinv. destruct Hinv as [[_ ->] | (_ & _ & ->)]; reflexivity.
    + unfold registerList in H. bind_inv H.
      apply manageMbrCredits_index in H as (Had & _). rewrite Had. clear Had.
      revert s a Ha. induction appIds as [|i rest IH]; simpl; intros s a Ha.
      * now injection Ha as <-.
      * bind_inv Ha. rewrite (IH _ _ Ha).
        pose proof (registerStep_inv sha512_256 _ _ _ Ha0) as Hinv.
        simpl in Hinv. destruct Hinv as [[_ ->] | (_ & _ & ->)]; reflexivity.
    + unfold deleteBoxes in H. bind_inv H. exact (deleteLoop_admin _ _ _ H).
    + unfold depositCredits in H. bind_inv H. bind_inv H. bind_inv H.
      now apply manageMbrCredits_index in H as (Had & _).
    + bind_inv H. injection H as <-. unfold withdrawCredits in Ha.
      bind_inv Ha. bind_inv Ha. bind_inv Ha. bind_inv Ha. now injection Ha as <-.
Qed.

Abbreviation mbr := (currentMinBalance minBalance).
Abbreviation depositCredits := (depositCredits minBalance currentApplicationAddress).
Abbreviation withdrawCredits := (withdrawCredits minBalance).

(** X16.  Credit conservation.  On a substrate where the cost of a credit
    box does not depend on the balance it stores and a further box does not
    lower the cost, an owner without account who deposits for themselves and
    withdraws right away is paid exactly the amount deposited, and the state
    is again the one before the deposit. *)
Theorem deposit_then_withdraw s owner txn s1 :
  (forall v w, minBalance (apps s) (<[owner := v]> (userCredits s))
               = minBalance (apps s) (<[owner := w]> (userCredits s))) ->
  (forall v, mbr s <= minBalance (apps s) (<[owner := v]> (userCredits s))) ->
  userCredits s !! owner = None ->
  is_uint64 (amount txn) ->
  depositCredits owner txn owner s = Ok s1 ->
  withdrawCredits owner s1 = Ok (s, amount txn).
Proof.
  intros Hflat Hmono Hnew Hamt H.
  assert (receiver txn = currentApplicationAddress /\ 0 < amount txn) as [Hr Hpos].
  { unfold Escreg.depositCredits in H. bind_inv H. bind_inv H.
    apply ensure_true in Ha, Ha0.
    apply bool_decide_eq_true in Ha. apply N.ltb_lt in Ha0. now split. }
  assert (balance s owner = 0) as Hb0 by (unfold balance; now rewrite Hnew).
  rewrite (depositCredits_checked minBalance currentApplicationAddress s owner owner txn
             Hr Hpos) in H by (rewrite Hb0; exact Hamt).
  rewrite Hb0, N.add_0_l in H.
  set (sw := set_userCredits <[owner := amount txn]> s) in *.
  assert (forall v, mbr (set_userCredits <[owner := v]> s) = mbr sw) as Hsame
    by (intros v; apply Hflat).
  assert (mbr s <= mbr sw) as Hle by apply Hmono.
  assert (exists v, s1 = set_userCredits <[owner := v]> s /\
                    v + (mbr sw - mbr s) = amount txn) as (v & -> & Hv).
  { destruct (N.eq_dec (mbr sw) (mbr s)) as [Heq|Hneq].
    - rewrite (manageMbrCredits_unchanged minBalance sw owner (mbr s) Heq) in H.
      injection H as <-. exists (amount txn). split; [reflexivity|].
      rewrite Heq. lia.
    - rewrite (manageMbrCredits_growth minBalance sw owner (mbr s)) in H by lia.
      assert (balance sw owner = amount txn) as Hb
        by (unfold balance, sw; simpl; now rewrite lookup_insert_eq).
      rewrite Hb in H.
      destruct (N.leb_spec (mbr sw - mbr s) (amount txn)); [|discriminate].
      injection H as <-. exists (amount txn - (mbr sw - mbr s)). split.
      + unfold sw, set_userCredits. simpl. now rewrite insert_insert_eq.
      + lia. }
  unfold Escreg.withdrawCredits. cbn [userCredits set_userCredits].
  rewrite lookup_insert_eq.
  rewrite bool_decide_eq_true_2 by (eexists; reflexivity).
  cbn [ensure bind box_value].
  assert (set_userCredits (delete owner) (set_userCredits <[owner := v]> s) = s) as Hback.
  { unfold set_userCredits. simpl. rewrite delete_insert_id by exact Hnew. now destruct s. }
  fold (set_userCredits <[owner := v]> s).
  fold (set_userCredits (delete owner) (set_userCredits <[owner := v]> s)).
  rewrite Hback. rewrite (Hsame v).
  unfold uint64_sub. destruct (N.leb_spec (mbr s) (mbr sw)); [|lia]. cbn [bind].
  unfold uint64_add. unfold is_uint64 in Hamt.
  destruct (N.leb_spec (v + (mbr sw - mbr s)) uint64_max); [|lia]. cbn [bind].
  now rewrite Hv.
Qed.

End Administration.

(** ** The SDK: chunks *)

Section Chunks.

Import EscregSDK.

Context {A : Type}.

Lemma chunkLoop_lookup (size : positive) fuel : forall (array : list A) k,
  (length array <= fuel)%nat ->
  chunkLoop fuel array size !! k
  = if decide (k * Pos.to_nat size < length array)%nat
    then Some (take (Pos.to_nat size) (drop (k * Pos.to_nat size) array))
    else None.
Proof.
  pose proof (Pos2Nat.is_pos size) as Hpos.
  induction fuel as [|fuel IH]; intros array k Hlen.
  - destruct array; [|simpl in Hlen; lia]. cbn [chunkLoop].
    rewrite lookup_nil, decide_False by (cbn [length]; lia). reflexivity.
  - destruct array as [|a rest].
    + cbn [chunkLoop].
      rewrite lookup_nil, decide_False by (cbn [length]; lia). reflexivity.
    + cbn [chunkLoop]. destruct k as [|k].
      * rewrite decide_True by (cbn [length]; lia). reflexivity.
      * rewrite lookup_cons. rewrite IH by (rewrite length_drop; simpl in *; lia).
        rewrite length_drop, drop_drop.
        replace (Pos.to_nat size + k * Pos.to_nat size)%nat
          with (S k * Pos.to_nat size)%nat by lia.
        repeat case_decide; try reflexivity; lia.
Qed.

Lemma chunk_count_bounds (array : list A) (size : positive) :
  let n := Pos.to_nat size in
  let chunks := length (chunk array size) in
  (length array <= chunks * n)%nat /\
  (chunks = 0 \/ (chunks - 1) * n < length array)%nat.
Proof.
  intros n chunks. pose proof (Pos2Nat.is_pos size) as Hpos. fold n in Hpos.
  assert (forall k, (k < chunks)%nat <-> (k * n < length array)%nat) as Hk.
  { intros k. unfold chunks. rewrite <- lookup_lt_is_Some. unfold chunk.
    rewrite chunkLoop_lookup by lia. fold n.
    case_decide; split; intros H'; try assumption; [eauto | now destruct H' | lia]. }
  split.
  - destruct (Nat.le_gt_cases (length array) (chunks * n)) as [|Hgt]; [assumption|].
    apply Hk in Hgt. lia.
  - destruct chunks as [|c] eqn:E; [now left|]. right.
    apply Hk. lia.
Qed.

(** X17.  [chunk] cuts an array into the slices of [size] elements that
    start at the multiples of [size]: put together again they are the
    array, each slice has at least one and at most [size] elements, all but
    the last have exactly [size], and there are as many as [size] goes into
    the length, rounded up; an empty array gives no slice. *)
Theorem chunk_partition (array : list A) (size : positive) :
  let n := Pos.to_nat size in
  concat (chunk array size) = array /\
  (forall k, chunk array size !! k
             = if decide (k * n < length array)%nat
               then Some (take n (drop (k * n) array)) else None) /\
  length (chunk array size) = ((length array + n - 1) / n)%nat /\
  Forall (fun c => (0 < length c <= n)%nat) (chunk array size) /\
  (forall k c, chunk array size !! k = Some c ->
               (S k < length (chunk array size))%nat -> length c = n).
Proof.
  intros n. pose proof (Pos2Nat.is_pos size) as Hpos. fold n in Hpos.
  assert (forall k, chunk array size !! k
             = if decide (k * n < length array)%nat
               then Some (take n (drop (k * n) array)) else None) as Hlook
    by (intros k; unfold chunk; now rewrite chunkLoop_lookup by lia).
  destruct (chunk_count_bounds array size) as [Hup Hlow]. fold n in Hup, Hlow.
  split; [apply chunk_concat|]. split; [exact Hlook|]. split; [|split].
  - set (chunks := length (chunk array size)) in *.
    pose proof (Nat.div_mod (length array + n - 1) n ltac:(lia)) as Hdm.
    pose proof (Nat.mod_upper_bound (length array + n - 1) n ltac:(lia)) as Hm.
    set (q := ((length array + n - 1) / n)%nat) in *.
    destruct Hlow as [H0|Hlow]; nia.
  - apply Forall_lookup. intros k c Hc. rewrite Hlook in Hc.
    case_decide as Hk; [|discriminate]. injection Hc as <-.
    rewrite length_take, length_drop. lia.
  - intros k c Hc Hnext. rewrite Hlook in Hc.
    case_decide as Hk; [|discriminate]. injection Hc as <-.
    rewrite length_take, length_drop. nia.
Qed.

End Chunks.

(** ** The SDK: what a run of [register] delivers *)

Section Delivery.

Import EscregSDK.

Variable simulate : nat -> nat -> list Call -> SimulateResponse.
Variable send : nat -> nat -> list Call -> bool.
Variable txIDs : list Call -> list string.
Variable lookupValues : list N -> list (option N).
Variable completion : nat -> list (list N) -> list (list N).

Hypothesis completion_permutes :
  forall passIdx groups, completion passIdx groups ≡ₚ groups.

Abbreviation register := (register simulate send txIDs lookupValues completion).
Abbreviation runPass := (runPass simulate send txIDs).
Abbreviation passResults := (passResults simulate send txIDs).
Abbreviation failedAppIds := (failedAppIds completion).
Abbreviation checkedIds := (checkedIds lookupValues).

Lemma addRegisterListCalls_fmap appIdChunk :
  addRegisterListCalls appIdChunk [] = RegisterListCall <$> appIdChunk.
Proof.
  induction appIdChunk as [|c rest IH] using rev_ind; [reflexivity|].
  unfold addRegisterListCalls in *. rewrite foldl_app, IH, fmap_app. reflexivity.
Qed.

Lemma buildGroup_cases (sim : list Call -> SimulateResponse) groupChunk :
  let calls := RegisterListCall <$> chunk groupChunk 7 in
  buildGroup sim groupChunk = calls \/
  exists n, (0 <= n)%Z /\
    buildGroup sim groupChunk
    = IncreaseBudgetCall n (n * 1000)%Z ((n + 1) * 1000)%Z :: calls.
Proof.
  intros calls. unfold buildGroup. rewrite addRegisterListCalls_fmap. fold calls.
  unfold getIncreaseBudgetBuilder.
  destruct (_ <=? _)%Z; [now left|]. right.
  eexists. split; [apply Z.le_max_l|].
  rewrite addRegisterListCalls_app, addRegisterListCalls_fmap. reflexivity.
Qed.


Lemma groups_split (groups : list (list N * bool)) :
  concat (fst <$> groups)
  ≡ₚ concat (fst <$> filter (fun g => snd g = true) groups)
     ++ concat (failed_groups groups).
Proof.
  unfold failed_groups.
  induction groups as [|[ids [|]] rest IH]; [reflexivity| |].
  - rewrite filter_cons_True by reflexivity.
    rewrite (filter_cons_False (fun g => snd g = false)) by (simpl; discriminate).
    rewrite !fmap_cons. simpl. rewrite IH, app_assoc. reflexivity.
  - rewrite filter_cons_False by (simpl; discriminate).
    rewrite (filter_cons_True (fun g => snd g = false)) by reflexivity.
    rewrite !fmap_cons. simpl. rewrite IH.
    rewrite !app_assoc. apply Permutation_app_tail, Permutation_app_comm.
Qed.

Lemma pass_split (p : Pass) :
  pass_ids p ≡ₚ confirmed_ids p ++ concat (failed_groups (pass_groups p)).
Proof. apply groups_split. Qed.

Lemma no_fails_no_failed (p : Pass) :
  pass_fails p = 0%nat -> concat (failed_groups (pass_groups p)) = [].
Proof.
  unfold pass_fails. rewrite <- length_concat_sum. apply length_zero_iff_nil.
Qed.

Lemma register_thrown_log fuel : forall appIds skip passIdx prev log e,
  register fuel appIds skip passIdx prev = Some (log, Thrown e) -> log <> [].
Proof.
  induction fuel as [|fuel IH]; intros appIds skip passIdx prev log e H; [discriminate|].
  cbn [EscregSDK.register] in H.
  destruct (EscregSDK.checkedIds lookupValues skip appIds) as [|i ids]; [discriminate|].
  destruct (_ && _); [now injection H as <- _|].
  destruct (negb _); [|discriminate].
  destruct (EscregSDK.register _ _ _ _ _ fuel _ _ _ _) as [[later [|]]|];
    try discriminate; now injection H as <- _.
Qed.


(** X20.  When [register] returns, it returns the transaction ids of every
    group of every pass, in the order of the passes and of their groups,
    those of the groups that failed and were retried included; the last
    pass had no failure and every pass before it had one. *)
Theorem register_returns_all_txids fuel : forall appIds skip passIdx prev log txs,
  register fuel appIds skip passIdx prev = Some (log, Returned txs) ->
  txs = concat (passTxIDs simulate send txIDs <$> log) /\
  (forall p, last log = Some p -> pass_fails p = 0%nat) /\
  (forall l1 p l2, log = l1 ++ p :: l2 -> l2 <> [] -> pass_fails p <> 0%nat).
Proof.
  induction fuel as [|fuel IH]; intros appIds skip passIdx prev log txs H; [discriminate|].
  cbn [EscregSDK.register] in H.
  pose proof (pass_ids_runPass simulate send txIDs passIdx prev (checkedIds skip appIds)) as Hids.
  destruct (EscregSDK.checkedIds lookupValues skip appIds) as [|i ids] eqn:Eids.
  { injection H as <- <-. split; [reflexivity|]. split; [discriminate|].
    intros [|] ? ? ?; discriminate. }
  set (this := runPass passIdx prev (i :: ids)) in *.
  assert (passTxIDs simulate send txIDs this = concat (passResults passIdx (i :: ids))) as Htx
    by (unfold passTxIDs; now rewrite Hids).
  destruct (negb (pass_fails this =? 0)%nat) eqn:Efails; cbn [andb] in H.
  - destruct (pass_fails this =? prev)%nat; [discriminate|].
    destruct (EscregSDK.register _ _ _ _ _ fuel _ _ _ _) as [[later [txs'|e]]|] eqn:Erec;
      try discriminate.
    injection H as <- <-. destruct (IH _ _ _ _ _ _ Erec) as (-> & Hlast & Hmid).
    apply negb_true_iff, Nat.eqb_neq in Efails.
    split; [|split].
    + rewrite fmap_cons. cbn [concat]. rewrite Htx, concat_app. cbn [concat].
      rewrite app_nil_r, app_assoc. reflexivity.
    + intros p Hp. rewrite last_cons in Hp.
      destruct (last later) as [q|] eqn:El; [injection Hp as <-; now apply Hlast|].
      injection Hp as <-. apply last_None in El. subst later.
      exfalso. destruct fuel; [discriminate|]. cbn [EscregSDK.register] in Erec.
      cbn [EscregSDK.checkedIds] in Erec.
      pose proof (length_failedAppIds completion completion_permutes this) as Hl.
      destruct (EscregSDK.failedAppIds completion this); [simpl in Hl; lia|].
      destruct (_ && _); [discriminate|]. destruct (negb _); [|discriminate].
      destruct (EscregSDK.register _ _ _ _ _ fuel _ _ _ _) as [[? [|]]|]; discriminate.
    + intros [|q l1] p l2 E Hne.
      * injection E as <- <-. exact Efails.
      * injection E as <- ->. now apply (Hmid l1 p l2).
  - injection H as <- <-. apply negb_false_iff, Nat.eqb_eq in Efails.
    split; [|split].
    + cbn [fmap list_fmap concat]. now rewrite Htx, app_nil_r.
    + intros p Hp. injection Hp as Hp. now subst p.
    + intros [|q [|q' l1]] p0 l2 E Hne; try discriminate. injection E as _ E.
      symmetry in E. contradiction.
Qed.


End Delivery.

(** ** The SDK: [lookup] and the check before a registration *)

Section LookupFacts.

Import EscregSDK.

Variable sha512_256 : bytes -> bytes.
Variable simulateReads : nat -> list (list bytes) -> list (list N).
Variable s : State.

Abbreviation get := (Escreg.get sha512_256).
Abbreviation getList := (Escreg.getList sha512_256).
Abbreviation lookup := (lookup simulateReads).

(** The simulation runs the [getList] calls of a group on the state [s]. *)
Hypothesis simulateReads_getList :
  forall chunkIndex calls,
    simulateReads chunkIndex calls = (fun addresses => getList addresses s) <$> calls.

Abbreviation entry := (lookupEntry sha512_256 s).

Lemma objectSet_entry (seen : list bytes) (a : bytes) :
  objectSet (entry <$> seen) (Some a) (orUndefined (get a s))
  = entry <$> (if decide (a ∈ seen) then seen else seen ++ [a]).
Proof.
  induction seen as [|k seen IH]; [reflexivity|].
  rewrite fmap_cons. unfold lookupEntry at 1. cbn [objectSet].
  destruct (decide (Some k = Some a)) as [E|E].
  - injection E as ->. rewrite decide_True by (apply elem_of_cons; now left). reflexivity.
  - rewrite IH. fold (entry k).
    destruct (decide (a ∈ seen)) as [Hin|Hin].
    + rewrite decide_True by (apply elem_of_cons; now right). reflexivity.
    + rewrite decide_False; [reflexivity|].
      rewrite elem_of_cons. intros [->|?]; [now apply E | contradiction].
Qed.

Lemma appendNew_snoc (seen l : list bytes) (a : bytes) :
  appendNew seen (l ++ [a])
  = if decide (a ∈ appendNew seen l) then appendNew seen l else appendNew seen l ++ [a].
Proof. unfold appendNew. now rewrite foldl_app. Qed.

Lemma appendNew_cons (seen l : list bytes) (a : bytes) :
  appendNew seen (a :: l)
  = appendNew (if decide (a ∈ seen) then seen else seen ++ [a]) l.
Proof. reflexivity. Qed.

Lemma appendNew_app (seen l1 l2 : list bytes) :
  appendNew seen (l1 ++ l2) = appendNew (appendNew seen l1) l2.
Proof. unfold appendNew. apply foldl_app. Qed.

Lemma elem_of_appendNew (l : list bytes) : forall seen a,
  a ∈ appendNew seen l <-> a ∈ seen \/ a ∈ l.
Proof.
  induction l as [|x l IH]; intros seen a.
  - cbn. rewrite elem_of_nil. tauto.
  - rewrite appendNew_cons, IH, elem_of_cons.
    destruct (decide (x ∈ seen)) as [Hx|Hx].
    + split; [tauto|]. intros [?|[->|?]]; tauto.
    + rewrite elem_of_app, list_elem_of_singleton. tauto.
Qed.

Lemma appendNew_twice (l : list bytes) : forall seen seen',
  appendNew seen (appendNew seen' l) = appendNew (appendNew seen seen') l.
Proof.
  induction l as [|a l IH] using rev_ind; intros seen seen'; [reflexivity|].
  rewrite !appendNew_snoc.
  destruct (decide (a ∈ appendNew seen' l)) as [Hin|Hin].
  - rewrite IH. rewrite decide_True; [reflexivity|].
    rewrite <- IH. apply elem_of_appendNew. now right.
  - rewrite appendNew_snoc, IH. reflexivity.
Qed.

Lemma appendNew_NoDup (l : list bytes) : forall seen,
  NoDup (seen ++ l) -> appendNew seen l = seen ++ l.
Proof.
  induction l as [|a l IH]; intros seen Hnd; [now rewrite app_nil_r|].
  rewrite appendNew_cons.
  apply NoDup_app in Hnd as Hparts. destruct Hparts as (_ & Hdisj & _).
  rewrite decide_False by (intros Hin; apply (Hdisj a Hin), elem_of_cons; now left).
  rewrite IH by now rewrite <- app_assoc.
  now rewrite <- app_assoc.
Qed.

Lemma assignReturns_entries (addressesChunk : list bytes) (addresses : list bytes) :
  forall pre post seen,
    addressesChunk = pre ++ addresses ++ post ->
    assignReturns addressesChunk ((fun a => get a s) <$> addresses)
                  (entry <$> seen) (length pre)
    = (entry <$> appendNew seen addresses, (length pre + length addresses)%nat).
Proof.
  induction addresses as [|a rest IH]; intros pre post seen E.
  - cbn. now rewrite Nat.add_0_r.
  - rewrite fmap_cons. cbn [assignReturns].
    assert (addressesChunk !! length pre = Some a) as ->.
    { subst addressesChunk. rewrite lookup_app_r by lia.
      now rewrite Nat.sub_diag. }
    rewrite objectSet_entry.
    replace (S (length pre)) with (length (pre ++ [a]))
      by (rewrite length_app; simpl; lia).
    rewrite (IH (pre ++ [a]) post) by (now rewrite <- app_assoc).
    rewrite appendNew_cons, length_app. simpl. f_equal. lia.
Qed.

Lemma assignGroup_entries (addressesChunk : list bytes) (calls : list (list bytes)) :
  forall pre post seen,
    addressesChunk = pre ++ concat calls ++ post ->
    assignGroup addressesChunk ((fun addresses => getList addresses s) <$> calls)
                (entry <$> seen) (length pre)
    = entry <$> appendNew seen (concat calls).
Proof.
  induction calls as [|addresses rest IH]; intros pre post seen E; [reflexivity|].
  rewrite fmap_cons. cbn [assignGroup].
  assert (getList addresses s = (fun a => get a s) <$> addresses) as ->
    by (unfold Escreg.getList; now rewrite getListLoop_spec).
  cbn [concat] in E. rewrite <- app_assoc in E.
  rewrite (assignReturns_entries addressesChunk addresses pre _ seen E).
  cbn [fst snd]. rewrite <- length_app.
  rewrite (IH (pre ++ addresses) post) by (now rewrite <- app_assoc).
  cbn [concat]. now rewrite appendNew_app.
Qed.

Lemma lookupChunk_entries chunkIndex (addressesChunk : list bytes) :
  lookupChunk simulateReads chunkIndex addressesChunk
  = entry <$> firstOccurrences addressesChunk.
Proof.
  unfold lookupChunk. rewrite simulateReads_getList.
  pose proof (assignGroup_entries addressesChunk (chunk addressesChunk 63) [] [] []) as H.
  rewrite chunk_concat in H. exact (H (eq_sym (app_nil_r _))).
Qed.

Lemma merge_entries (result : list bytes) : forall seen,
  foldl (fun final e => objectSet final (fst e) (snd e)) (entry <$> seen) (entry <$> result)
  = entry <$> appendNew seen result.
Proof.
  induction result as [|a rest IH]; intros seen; [reflexivity|].
  rewrite fmap_cons. cbn [foldl]. unfold lookupEntry at 2 3. cbn [fst snd].
  rewrite objectSet_entry, IH. reflexivity.
Qed.

Lemma mergeResults_entries (chunks : list (list bytes)) : forall seen,
  foldl (fun finalResult result =>
           foldl (fun final e => objectSet final (fst e) (snd e)) finalResult result)
        (entry <$> seen) ((fun c => entry <$> firstOccurrences c) <$> chunks)
  = entry <$> appendNew seen (concat chunks).
Proof.
  induction chunks as [|c rest IH]; intros seen; [reflexivity|].
  rewrite fmap_cons. cbn [foldl]. rewrite merge_entries.
  unfold firstOccurrences at 1. rewrite appendNew_twice.
  change (appendNew seen []) with seen.
  rewrite IH. cbn [concat]. now rewrite appendNew_app.
Qed.

Lemma lookup_entries (addresses : list bytes) :
  lookup addresses = entry <$> firstOccurrences addresses.
Proof.
  unfold EscregSDK.lookup, mergeResults.
  rewrite (imap_ext _ (const (fun c => entry <$> firstOccurrences c)))
    by (intros; apply lookupChunk_entries).
  rewrite imap_const.
  pose proof (mergeResults_entries (chunk addresses 128) []) as H.
  rewrite chunk_concat in H. exact H.
Qed.

Lemma objectGet_entries (seen : list bytes) (a : bytes) :
  a ∈ seen -> objectGet (entry <$> seen) (Some a) = Some (orUndefined (get a s)).
Proof.
  induction seen as [|k seen IH]; intros Hin; [now apply elem_of_nil in Hin|].
  rewrite fmap_cons. unfold lookupEntry at 1. cbn [objectGet].
  destruct (decide (Some k = Some a)) as [E|E]; [now injection E as ->|].
  apply elem_of_cons in Hin as [->|Hin]; [contradiction | now apply IH].
Qed.

(** X21.  When the simulation answers the [getList] calls from the state of
    the contract, [lookup] returns one entry for each address it was given,
    a repeated address once, in the order of the first occurrences; the
    entry of an address is what [get] returns for it, or undefined when
    that is 0.  This holds however many groups and calls the addresses are
    spread over. *)
Theorem lookup_resolves (addresses : list bytes) :
  lookup addresses
  = (fun a => (Some a, orUndefined (get a s))) <$> firstOccurrences addresses /\
  (forall a, a ∈ addresses ->
     objectGet (lookup addresses) (Some a) = Some (orUndefined (get a s))) /\
  (forall a, a ∉ addresses -> objectGet (lookup addresses) (Some a) = None) /\
  (NoDup addresses ->
     lookup addresses = (fun a => (Some a, orUndefined (get a s))) <$> addresses).
Proof.
  split; [apply lookup_entries|]. split; [|split].
  - intros a Hin. rewrite lookup_entries. apply objectGet_entries.
    apply elem_of_appendNew. now right.
  - intros a Hout. rewrite lookup_entries.
    assert (a ∉ firstOccurrences addresses) as Hno.
    { intros Hin. apply elem_of_appendNew in Hin as [Hin|Hin];
        [now apply elem_of_nil in Hin | contradiction]. }
    induction (firstOccurrences addresses) as [|k l IH]; [reflexivity|].
    rewrite fmap_cons. unfold lookupEntry at 1. cbn [objectGet].
    rewrite not_elem_of_cons in Hno. destruct Hno as [Hne Hno].
    rewrite decide_False by congruence. now apply IH.
  - intros Hnd. rewrite lookup_entries. unfold firstOccurrences.
    now rewrite appendNew_NoDup.
Qed.

End LookupFacts.

(** ** The SDK: the check before a registration *)

Section Precheck.

Import EscregSDK.

Variable sha512_256 : bytes -> bytes.
Variable simulateReads : nat -> list (list bytes) -> list (list N).
Variable s : State.
(** The address the SDK derives for an identifier, as the bytes it stands
    for. *)
Variable getApplicationAddress : N -> bytes.
Variable lookupValues : list N -> list (option N).

Abbreviation get := (Escreg.get sha512_256).
Abbreviation getList := (Escreg.getList sha512_256).
Abbreviation lookup := (lookup simulateReads).
Abbreviation checkedIds := (checkedIds lookupValues).

Hypothesis simulateReads_getList :
  forall chunkIndex calls,
    simulateReads chunkIndex calls = (fun addresses => getList addresses s) <$> calls.

(** Line 262 and [Object.values] at line 266. *)
Hypothesis lookupValues_lookup :
  forall appIds,
    lookupValues appIds = snd <$> lookup (getApplicationAddress <$> appIds).

Lemma dropExisting_from (f : N -> option N) (l : list N) : forall pre,
  snd <$> filter (fun p => isExisting (f <$> (pre ++ l)) (fst p) = false)
                 (imap (fun idx appId => ((length pre + idx)%nat, appId)) l)
  = filter (fun i => f i = None) l.
Proof.
  induction l as [|a rest IH]; intros pre; [reflexivity|].
  rewrite imap_cons, !filter_cons. cbn [fst].
  assert (isExisting (f <$> pre ++ a :: rest) (length pre + 0)
          = match f a with Some _ => true | None => false end) as ->.
  { unfold isExisting. rewrite list_lookup_fmap, lookup_app_r by lia.
    replace (length pre + 0 - length pre)%nat with 0%nat by lia. reflexivity. }
  assert (snd <$> filter (fun p => isExisting (f <$> pre ++ a :: rest) (fst p) = false)
                    (imap ((fun idx appId => ((length pre + idx)%nat, appId)) ∘ S) rest)
          = filter (fun i => f i = None) rest) as Htail.
  { rewrite <- (IH (pre ++ [a])), <- app_assoc. cbn [app].
    f_equal. f_equal. apply imap_ext. intros i x _. cbn.
    rewrite length_app. cbn. f_equal. lia. }
  destruct (f a) as [v|].
  - rewrite decide_False by discriminate. rewrite decide_False by discriminate.
    exact Htail.
  - rewrite decide_True by reflexivity. rewrite decide_True by reflexivity.
    rewrite fmap_cons. cbn [snd]. now rewrite Htail.
Qed.

Lemma dropExisting_values (f : N -> option N) (l : list N) :
  dropExisting (f <$> l) l = filter (fun i => f i = None) l.
Proof. apply (dropExisting_from f l []). Qed.

Lemma orUndefined_None v : orUndefined v = None <-> v = 0.
Proof. unfold orUndefined. destruct (N.eqb_spec v 0); split; congruence. Qed.

Lemma checkedIds_values (appIds : list N) :
  checkedIds false appIds
  = dropExisting ((fun a => orUndefined (get a s))
                    <$> firstOccurrences (getApplicationAddress <$> appIds)) appIds.
Proof.
  unfold EscregSDK.checkedIds. rewrite lookupValues_lookup.
  rewrite (lookup_entries sha512_256 simulateReads s simulateReads_getList).
  rewrite <- list_fmap_compose. reflexivity.
Qed.

(** X22.  When the identifiers have pairwise different addresses, the check
    that [register] makes first leaves exactly the identifiers whose
    address the contract does not resolve, in the order given: every
    registered identifier is skipped and no other. *)
Theorem precheck_drops_registered (appIds : list N) :
  NoDup (getApplicationAddress <$> appIds) ->
  checkedIds false appIds
  = filter (fun appId => get (getApplicationAddress appId) s = 0) appIds.
Proof.
  intros Hnd. rewrite checkedIds_values.
  unfold firstOccurrences. rewrite appendNew_NoDup by exact Hnd. cbn [app].
  rewrite <- list_fmap_compose.
  rewrite (dropExisting_values
             ((fun a => orUndefined (get a s)) ∘ getApplicationAddress)).
  apply list_filter_iff. intros i. cbn. apply orUndefined_None.
Qed.

(** X23.  The check pairs the identifiers with the values of the lookup by
    position, and the lookup has one value for each different address: when
    an identifier is given twice, the positions after it are off by one.
    Given [a; a; b; c] with only [c] registered, the check drops [b], which
    is not registered and is then never submitted, and keeps [c]. *)
Theorem precheck_misaligned_by_duplicate (a b c : N) :
  let A := getApplicationAddress a in
  let B := getApplicationAddress b in
  let C := getApplicationAddress c in
  A <> B -> A <> C -> B <> C ->
  get A s = 0 -> get B s = 0 -> get C s <> 0 ->
  checkedIds false [a; a; b; c] = [a; a; c].
Proof.
  intros A B C HAB HAC HBC HA HB HC. rewrite checkedIds_values.
  assert (firstOccurrences (getApplicationAddress <$> [a; a; b; c]) = [A; B; C]) as ->.
  { unfold firstOccurrences, appendNew. cbn [fmap list_fmap foldl]. fold A B C.
    rewrite (decide_False (P := A ∈ [])) by (apply not_elem_of_nil).
    cbn [app].
    rewrite (decide_True (P := A ∈ [A])) by (apply elem_of_cons; now left).
    rewrite (decide_False (P := B ∈ [A]))
      by (rewrite list_elem_of_singleton; congruence).
    cbn [app].
    rewrite (decide_False (P := C ∈ [A; B]))
      by (rewrite !elem_of_cons, elem_of_nil; intros [?|[?|[]]]; congruence).
    reflexivity. }
  cbn [fmap list_fmap]. rewrite HA, HB.
  unfold orUndefined. destruct (N.eqb_spec (get C s) 0) as [|_]; [contradiction|].
  reflexivity.
Qed.

End Precheck.

(** ** The ledger: what is stored stays a uint64, and closing an account *)

Section Words.

Variable sha512_256 : bytes -> bytes.
Variable minBalance : gmap bytes (list N) -> gmap bytes N -> N.
Variable currentApplicationAddress : bytes.

Abbreviation reachable := (reachable sha512_256 minBalance currentApplicationAddress).
Abbreviation withdrawCredits := (Escreg.withdrawCredits minBalance).
Abbreviation depositCredits := (Escreg.depositCredits minBalance currentApplicationAddress).
Abbreviation manageMbrCredits := (Escreg.manageMbrCredits minBalance).
Abbreviation mbr := (currentMinBalance minBalance).

Lemma manageMbrCredits_uint64 mbrBefore sender s s' :
  (forall owner v, userCredits s !! owner = Some v -> is_uint64 v) ->
  manageMbrCredits mbrBefore sender s = Ok s' ->
  forall owner v, userCredits s' !! owner = Some v -> is_uint64 v.
Proof.
  intros Hok H owner v. unfold Escreg.manageMbrCredits in H.
  destruct (_ =? _); [injection H as <-; apply Hok|].
  destruct (_ <? _).
  - bind_inv H. injection H as <-. cbn [userCredits set_userCredits].
    destruct (decide (owner = sender)) as [->|Hne].
    + rewrite lookup_insert_eq. intros [= <-].
      destruct (userCredits s !! sender) as [w|] eqn:E.
      * specialize (Hok _ _ E). unfold is_uint64 in *. lia.
      * unfold is_uint64, uint64_max. lia.
    + rewrite lookup_insert_ne by congruence. apply Hok.
  - bind_inv H. bind_inv H. bind_inv H. injection H as <-.
    cbn [userCredits set_userCredits].
    apply uint64_add_Ok in Ha1 as [_ Hv].
    destruct (decide (owner = sender)) as [->|Hne].
    + rewrite lookup_insert_eq. now intros [= <-].
    + rewrite lookup_insert_ne by congruence. apply Hok.
Qed.

Lemma registerLoop_counter appIds : forall s s',
  is_uint64 (counter s) -> registerLoop sha512_256 appIds s = Ok s' ->
  is_uint64 (counter s').
Proof.
  induction appIds as [|a rest IH]; simpl; intros s s' Hc H.
  - now injection H as <-.
  - bind_inv H. eapply IH; [|exact H].
    pose proof (registerStep_inv sha512_256 _ _ _ Ha) as Hinv. simpl in Hinv.
    destruct Hinv as [[_ ->] | (_ & Hu & ->)]; assumption.
Qed.

Lemma deleteLoop_counter boxKeys : forall s s',
  deleteLoop boxKeys s = Ok s' ->
  counter s' <= counter s /\ userCredits s' = userCredits s.
Proof.
  induction boxKeys as [|k rest IH]; simpl; intros s s' H.
  - injection H as <-. split; [lia | reflexivity].
  - destruct (apps s !! k); [|eauto]. bind_inv H.
    apply uint64_sub_Ok in Ha as [-> _]. apply IH in H as [Hle ->].
    simpl in *. split; [lia | reflexivity].
Qed.

Lemma exec_uint64 c sender s s' :
  is_uint64 (counter s) ->
  (forall owner v, userCredits s !! owner = Some v -> is_uint64 v) ->
  exec sha512_256 minBalance currentApplicationAddress c sender s = Ok s' ->
  is_uint64 (counter s') /\
  (forall owner v, userCredits s' !! owner = Some v -> is_uint64 v).
Proof.
  intros Hc Hok H. destruct c as [appId|appIds|boxKeys|creditor txn|]; simpl in H.
  - unfold Escreg.register in H. bind_inv H.
    pose proof (manageMbrCredits_index _ _ _ _ _ H) as (_ & _ & ->).
    split.
    + apply (registerLoop_counter [appId] s a Hc). simpl. now rewrite Ha.
    + eapply manageMbrCredits_uint64; [|exact H].
      rewrite (registerStep_credits _ _ _ _ Ha). exact Hok.
  - unfold Escreg.registerList in H. bind_inv H.
    pose proof (manageMbrCredits_index _ _ _ _ _ H) as (_ & _ & ->).
    split.
    + eapply registerLoop_counter; eassumption.
    + eapply manageMbrCredits_uint64; [|exact H].
      rewrite (registerLoop_credits _ _ _ _ Ha). exact Hok.
  - unfold deleteBoxes in H. bind_inv H.
    apply deleteLoop_counter in H as [Hle ->].
    split; [unfold is_uint64 in *; lia | exact Hok].
  - unfold Escreg.depositCredits in H. bind_inv H. bind_inv H. bind_inv H.
    pose proof (manageMbrCredits_index _ _ _ _ _ H) as (_ & _ & ->).
    split; [exact Hc|].
    eapply manageMbrCredits_uint64; [|exact H].
    intros owner v. cbn [userCredits set_userCredits].
    apply uint64_add_Ok in Ha1 as [_ Hv].
    destruct (decide (owner = creditor)) as [->|Hne].
    + rewrite lookup_insert_eq. now intros [= <-].
    + rewrite lookup_insert_ne by congruence. apply Hok.
  - bind_inv H. injection H as <-. unfold Escreg.withdrawCredits in Ha.
    bind_inv Ha. bind_inv Ha. bind_inv Ha. bind_inv Ha. injection Ha as <-.
    cbn [fst counter userCredits set_userCredits]. split; [exact Hc|].
    intros owner v Hv. apply lookup_delete_Some in Hv as [_ Hv]. eapply Hok, Hv.
Qed.

Lemma reachable_words s :
  reachable s ->
  is_uint64 (counter s) /\
  (forall owner v, userCredits s !! owner = Some v -> is_uint64 v).
Proof.
  induction 1 as [creator | s s' c sender _ [Hc Hok] Hv Hexec].
  - split; [unfold is_uint64, uint64_max; simpl; lia|].
    intros owner v Hv. simpl in Hv. rewrite lookup_empty in Hv. discriminate.
  - eapply exec_uint64; eassumption.
Qed.

(** X24.  In every reachable state all that is stored fits in 64 bits: the
    counter, every credit balance and every identifier of a bucket.  The
    sums and differences of the contract never leave the range without
    the call failing. *)
Theorem reachable_uint64 s :
  reachable s ->
  is_uint64 (counter s) /\
  (forall owner v, userCredits s !! owner = Some v -> is_uint64 v) /\
  (forall key bucket, apps s !! key = Some bucket -> Forall is_uint64 bucket).
Proof.
  intros Hr. destruct (reachable_words s Hr) as [Hc Hok].
  split; [exact Hc|]. split; [exact Hok|].
  apply (ids_are_uint64 _ (reachable_index_ok _ _ _ _ Hr)).
Qed.

(** X25.  [withdrawCredits] closes the account of the sender and touches
    nothing else: the account is gone, every other account, the buckets,
    the counter and the admin are as before, and the sender is paid the
    balance together with what the deletion of the box released of the
    storage cost.  A second withdrawal, like any withdrawal without an
    account, fails with ERR:AMT. *)
Theorem withdrawCredits_closes_account s sender :
  (forall s' paid,
     withdrawCredits sender s = Ok (s', paid) ->
     userCredits s' = delete sender (userCredits s) /\
     apps s' = apps s /\ counter s' = counter s /\ admin s' = admin s /\
     mbr s' <= mbr s /\
     (exists credit, userCredits s !! sender = Some credit /\
                     paid = credit + (mbr s - mbr s')) /\
     is_uint64 paid /\
     withdrawCredits sender s' = Err (ErrCode "ERR:AMT")) /\
  (userCredits s !! sender = None ->
     withdrawCredits sender s = Err (ErrCode "ERR:AMT")).
Proof.
  split.
  - intros s' paid H. unfold Escreg.withdrawCredits in H.
    bind_inv H. bind_inv H. bind_inv H. bind_inv H. injection H as <- <-.
    apply box_value_Ok in Ha0. apply uint64_sub_Ok in Ha1 as [-> Hle].
    apply uint64_add_Ok in Ha2 as [-> Hpaid].
    cbn [userCredits apps counter admin set_userCredits].
    repeat split; try assumption.
    + exists a0. split; [exact Ha0 | reflexivity].
    + apply (withdrawCredits_no_account minBalance).
      cbn [userCredits set_userCredits]. apply lookup_delete_eq.
  - apply (withdrawCredits_no_account minBalance).
Qed.

End Words.

(** ** The further properties on concrete inputs *)

Lemma reachable_registered5 :
  reachable padded_reverse box_min_balance escreg_address registered5.
Proof.
  apply (reachable_step _ _ _ funded registered5 (CallRegister 5) alice).
  - exact reachable_funded.
  - vm_compute. discriminate.
  - vm_compute. reflexivity.
Qed.

Lemma box_min_balance_new_account apps credits (owner : bytes) (v : N) :
  credits !! owner = None ->
  box_min_balance apps (<[owner := v]> credits) = box_min_balance apps credits + 18900.
Proof.
  intros Hnone. unfold box_min_balance.
  rewrite map_size_insert_None by exact Hnone. lia.
Qed.

(** X1 at the address of 5. *)
Lemma get_sound_witness :
  deriveAddr padded_reverse 5 = deriveAddr padded_reverse 5 /\
  registered padded_reverse registered5 5.
Proof.
  apply (get_sound padded_reverse registered5 (deriveAddr padded_reverse 5) 5).
  - vm_compute. reflexivity.
  - discriminate.
Defined.

(** X6 after a batch registration. *)
Lemma reachable_buckets_ok_witness :
  buckets_ok padded_reverse registered_both /\
  (forall key1 key2 bucket1 bucket2 i,
     apps registered_both !! key1 = Some bucket1 ->
     apps registered_both !! key2 = Some bucket2 ->
     i ∈ bucket1 -> i ∈ bucket2 -> key1 = key2).
Proof.
  apply (reachable_buckets_ok padded_reverse box_min_balance escreg_address registered_both).
  exact reachable_batch.
Defined.

(** X7: registering 5 + 2^32, alone or in a batch, leaves the answer for
    the address of 5 as it was. *)
Lemma register_frame_witness :
  get padded_reverse (deriveAddr padded_reverse 5) registered_both
  = get padded_reverse (deriveAddr padded_reverse 5) registered5.
Proof.
  destruct (register_frame padded_reverse box_min_balance registered5 alice registered_both
              (deriveAddr padded_reverse 5)) as [Hone Hlist].
  assert (get padded_reverse (deriveAddr padded_reverse 5) registered_both
          = get padded_reverse (deriveAddr padded_reverse 5) registered5) as Hbatch.
  { apply (Hlist [4294967301]).
    - intros i Hi. apply list_elem_of_singleton in Hi. subst i. vm_compute. discriminate.
    - vm_compute. reflexivity. }
  apply (Hone 4294967301).
  - vm_compute. discriminate.
  - vm_compute. reflexivity.
Defined.

(** X8: [bob] repeats the batch of [alice]. *)
Lemma registerList_idempotent_witness :
  registerList padded_reverse box_min_balance [5; 4294967301; 5] bob registered_both
  = Ok registered_both.
Proof.
  apply (registerList_idempotent padded_reverse box_min_balance funded
           [5; 4294967301; 5] alice bob registered_both).
  vm_compute. reflexivity.
Defined.

(** X9: the batch [5; 5 + 2^32] as one call and as two. *)
Lemma registerList_as_registers_witness :
  apps registered_both = apps registered_both /\
  counter registered_both = counter registered_both.
Proof.
  apply (proj2 (registerList_as_registers padded_reverse box_min_balance funded alice)
           [5; 4294967301] alice registered_both registered_both).
  - vm_compute. reflexivity.
  - vm_compute. reflexivity.
Defined.

(** X10: the first identifier of a bucket takes 8100 from [alice]. *)
Lemma registration_charges_sender_witness :
  (box_min_balance (apps registered5) (userCredits funded)
   - currentMinBalance box_min_balance funded <= balance funded alice) /\
  balance registered5 alice
  = balance funded alice
    - (box_min_balance (apps registered5) (userCredits funded)
       - currentMinBalance box_min_balance funded).
Proof.
  apply (proj1 (registration_charges_sender padded_reverse box_min_balance funded alice
                  registered5) 5).
  - vm_compute. reflexivity.
  - vm_compute. discriminate.
Defined.

(** X11: [bob], who has no credit, cannot register 5; [alice] can. *)
Lemma registerList_needs_credit_witness :
  registerList padded_reverse box_min_balance [5] bob funded = Err (ErrCode "ERR:CRD") /\
  exists s2,
    registerList padded_reverse box_min_balance [5] alice funded = Ok s2 /\
    apps s2 = apps registered5 /\ counter s2 = counter registered5.
Proof.
  destruct (registerList_needs_credit padded_reverse box_min_balance funded [5] alice
              registered5 bob ltac:(vm_compute; reflexivity) ltac:(vm_compute; reflexivity))
    as [Hshort _].
  destruct (registerList_needs_credit padded_reverse box_min_balance funded [5] alice
              registered5 alice ltac:(vm_compute; reflexivity) ltac:(vm_compute; reflexivity))
    as [_ Henough].
  split.
  - apply Hshort. vm_compute. reflexivity.
  - apply Henough. vm_compute. discriminate.
Defined.

(** X12 at the address of 5. *)
Lemma get_resolves_witness :
  get padded_reverse (deriveAddr padded_reverse 5) registered5 = 5
  <-> registered padded_reverse registered5 5
      /\ deriveAddr padded_reverse 5 = deriveAddr padded_reverse 5.
Proof.
  apply (get_resolves padded_reverse box_min_balance escreg_address
           padded_reverse_collision_free registered5 (deriveAddr padded_reverse 5) 5).
  - exact reachable_registered5.
  - discriminate.
Defined.

(** X13 on the batch [5; 5 + 2^32; 5]. *)
Lemma registerList_then_getList_witness :
  getList padded_reverse (deriveAddr padded_reverse <$> [5; 4294967301; 5]) registered_both
  = [5; 4294967301; 5] /\
  mustGetList padded_reverse (deriveAddr padded_reverse <$> [5; 4294967301; 5]) registered_both
  = Ok [5; 4294967301; 5].
Proof.
  destruct (registerList_then_getList padded_reverse box_min_balance escreg_address
              padded_reverse_collision_free funded [5; 4294967301; 5] alice registered_both)
    as [Hget Hmust].
  - exact reachable_funded.
  - repeat constructor; vm_compute; discriminate.
  - vm_compute. reflexivity.
  - split; [exact Hget|]. apply Hmust.
    rewrite !elem_of_cons, elem_of_nil. intros [?|[?|[?|[]]]]; discriminate.
Defined.

(** X14: the admin deletes the one bucket, naming its key twice. *)
Lemma deleteBoxes_by_admin_witness :
  exists s',
    deleteBoxes [deriveAddrPrefix padded_reverse 5; deriveAddrPrefix padded_reverse 5]
      (admin registered_both) registered_both = Ok s' /\
    (forall key,
       apps s' !! key
       = if decide (key ∈ [deriveAddrPrefix padded_reverse 5; deriveAddrPrefix padded_reverse 5])
         then None else apps registered_both !! key) /\
    (forall address,
       take 4 address ∈ [deriveAddrPrefix padded_reverse 5; deriveAddrPrefix padded_reverse 5] ->
       get padded_reverse address s' = 0) /\
    counter s' = bucket_total (apps s') /\
    userCredits s' = userCredits registered_both.
Proof.
  apply (deleteBoxes_by_admin padded_reverse box_min_balance escreg_address registered_both).
  exact reachable_batch.
Defined.

(** X15: [bob] is not the admin, [alice] is, and stays so. *)
Lemma admin_only_witness :
  ((forall boxKeys, deleteBoxes boxKeys bob registered5 = Err (ErrCode "ERR:AUTH")) /\
   (forall amount, withdraw amount bob registered5 = Err (ErrCode "ERR:AUTH")) /\
   deleteApplication bob registered5 = Err (ErrCode "ERR:AUTH") /\
   updateApplication bob registered5 = Err (ErrCode "ERR:AUTH")) /\
  (forall amount,
     withdraw amount alice registered5 = Ok (mkInnerPayment (admin registered5) amount)) /\
  admin registered_both = admin registered5.
Proof.
  split; [|split].
  - apply (proj1 (admin_only padded_reverse box_min_balance escreg_address registered5 bob)).
    vm_compute. discriminate.
  - apply (proj1 (proj2 (admin_only padded_reverse box_min_balance escreg_address
                           registered5 alice))).
    reflexivity.
  - apply (proj2 (proj2 (admin_only padded_reverse box_min_balance escreg_address
                           registered5 alice))
             (CallRegister 4294967301) registered_both).
    vm_compute. reflexivity.
Defined.

(** X16: [bob] deposits 100000 on [funded] and withdraws. *)
Lemma deposit_then_withdraw_witness :
  withdrawCredits box_min_balance bob funded_bob = Ok (funded, 100000).
Proof.
  assert (userCredits funded !! bob = None) as Hnone by (vm_compute; reflexivity).
  apply (deposit_then_withdraw box_min_balance escreg_address funded bob
           (mkPayment escreg_address 100000) funded_bob).
  - intros v w. now rewrite !box_min_balance_new_account.
  - intros v. rewrite box_min_balance_new_account by exact Hnone.
    unfold currentMinBalance. lia.
  - exact Hnone.
  - vm_compute. discriminate.
  - vm_compute. reflexivity.
Defined.

(** X17 on three elements in slices of two. *)
Lemma chunk_partition_witness : length [1; 2] = Pos.to_nat 2.
Proof.
  apply (proj2 (proj2 (proj2 (proj2 (chunk_partition [1; 2; 3] 2)))) 0%nat [1; 2]).
  - reflexivity.
  - vm_compute. lia.
Defined.


Lemma retry_run :
  EscregSDK.register (fun _ _ => short_budget) confirmed_on_retry some_txIDs
    none_registered in_order 3 [1; 2; 3] true 1 0
  = Some (retry_log, EscregSDK.Returned ["tx"; "tx"]%string).
Proof. vm_compute. reflexivity. Qed.


(** X20 on the same run: the transaction id of the failed group is
    returned with that of the confirmed one. *)
Lemma register_returns_all_txids_witness :
  ["tx"; "tx"]%string
  = concat (EscregSDK.passTxIDs (fun _ _ => short_budget) confirmed_on_retry some_txIDs
              <$> retry_log) /\
  (forall p, last retry_log = Some p -> EscregSDK.pass_fails p = 0%nat) /\
  (forall l1 p l2, retry_log = l1 ++ p :: l2 -> l2 <> [] -> EscregSDK.pass_fails p <> 0%nat).
Proof.
  apply (register_returns_all_txids (fun _ _ => short_budget) confirmed_on_retry some_txIDs
           none_registered in_order (fun _ groups => Permutation_refl groups)
           3 [1; 2; 3] true 1 0).
  exact retry_run.
Defined.

(** X21: the addresses of 5, 7 and again 5, on a state that holds 5. *)
Lemma lookup_resolves_witness :
  EscregSDK.objectGet
    (EscregSDK.lookup (reads_of registered5)
       [deriveAddr padded_reverse 5; deriveAddr padded_reverse 7; deriveAddr padded_reverse 5])
    (Some (deriveAddr padded_reverse 5))
  = Some (EscregSDK.orUndefined
            (get padded_reverse (deriveAddr padded_reverse 5) registered5)).
Proof.
  apply (proj1 (proj2 (lookup_resolves padded_reverse (reads_of registered5) registered5
                         (fun _ _ => eq_refl)
                         [deriveAddr padded_reverse 5; deriveAddr padded_reverse 7;
                          deriveAddr padded_reverse 5]))).
  apply elem_of_cons. left. reflexivity.
Defined.

(** X22: of 5 and 7 on a state that holds 5, the check leaves 7. *)
Lemma precheck_drops_registered_witness :
  EscregSDK.checkedIds (lookup_values_of registered5) false [5; 7]
  = filter (fun appId => get padded_reverse (deriveAddr padded_reverse appId) registered5 = 0)
           [5; 7].
Proof.
  apply (precheck_drops_registered padded_reverse (reads_of registered5) registered5
           (deriveAddr padded_reverse) (lookup_values_of registered5)
           (fun _ _ => eq_refl) (fun _ => eq_refl) [5; 7]).
  apply (bool_decide_unpack _). vm_compute. exact I.
Defined.

(** X23: of [7; 7; 9; 5] on a state that holds 5, the check drops 9. *)
Lemma precheck_misaligned_by_duplicate_witness :
  EscregSDK.checkedIds (lookup_values_of registered5) false [7; 7; 9; 5] = [7; 7; 5].
Proof.
  apply (precheck_misaligned_by_duplicate padded_reverse (reads_of registered5) registered5
           (deriveAddr padded_reverse) (lookup_values_of registered5)
           (fun _ _ => eq_refl) (fun _ => eq_refl) 7 9 5).
  - vm_compute. discriminate.
  - vm_compute. discriminate.
  - vm_compute. discriminate.
  - vm_compute. reflexivity.
  - vm_compute. reflexivity.
  - vm_compute. discriminate.
Defined.

(** X24 after a batch registration. *)
Lemma reachable_uint64_witness :
  is_uint64 (counter registered_both) /\
  (forall owner v, userCredits registered_both !! owner = Some v -> is_uint64 v) /\
  (forall key bucket, apps registered_both !! key = Some bucket -> Forall is_uint64 bucket).
Proof.
  apply (reachable_uint64 padded_reverse box_min_balance escreg_address registered_both).
  exact reachable_batch.
Defined.

(** X25: [bob] withdraws what he deposited on [funded]. *)
Lemma withdrawCredits_closes_account_witness :
  userCredits funded = delete bob (userCredits funded_bob) /\
  apps funded = apps funded_bob /\ counter funded = counter funded_bob /\
  admin funded = admin funded_bob /\
  currentMinBalance box_min_balance funded <= currentMinBalance box_min_balance funded_bob /\
  (exists credit,
     userCredits funded_bob !! bob = Some credit /\
     100000 = credit + (currentMinBalance box_min_balance funded_bob
                        - currentMinBalance box_min_balance funded)) /\
  is_uint64 100000 /\
  withdrawCredits box_min_balance bob funded = Err (ErrCode "ERR:AMT").
Proof.
  apply (proj1 (withdrawCredits_closes_account box_min_balance funded_bob bob) funded 100000).
  vm_compute. reflexivity.
Defined.
